(** * sockio.aio: the managed asyncio socket

    A shallow embedding of [src/sockio/aio.py].  The methods of [Socket]
    are written as programs of a small free monad whose events are the
    attribute loads and stores on [self], the operations of the asyncio
    lock, and the calls into the asyncio stream transport.  A program is
    run sequentially by [run] (one caller, every [await] completes at
    once) or interleaved with other callers by [exec] (a scheduler picks
    which task performs its next event). *)

From Stdlib Require Import ZArith Lia Bool.
From stdpp Require Import base option list strings.

Set Implicit Arguments.
Set Default Proof Using "Type".
Local Open Scope Z_scope.

(** ** Values *)

(** Python [bytes]. *)
Definition bytes := list Byte.byte.

(** The exceptions the module can surface.  [AttributeError] is what
    Python raises for [None.read], [None.write], ...; [ConnectionError]
    is raised by [Socket.open]; everything the transport raises is kept
    apart as [TransportError]. *)
Inductive exn :=
| AttributeError
| ConnectionError (msg : string)
| TransportError (name : string)
| CancelledError.

Inductive result (A : Type) :=
| Ok (a : A)
| Err (name : string).
Arguments Ok {A} a.
Arguments Err {A} name.

(** What a method hands back to its caller: [None] or a block of bytes. *)
Inductive value :=
| VNone
| VBytes (b : bytes).

(** How a call ends for a single caller: it returns, it raises, or it
    waits for ever on the lock. *)
Inductive outcome (R : Type) :=
| Returned (r : R)
| Raised (e : exn)
| Blocked.
Arguments Returned {R} r.
Arguments Raised {R} e.
Arguments Blocked {R}.

Declare Scope prog_scope.
Delimit Scope prog_scope with prog.

Section Model.

(** The stream objects of asyncio and the outside world they talk to. *)
Context {reader writer world : Type}.

(** ** The transport interface

    The calls the module makes into asyncio: [asyncio.open_connection],
    the [StreamReader] coroutines and the [StreamWriter] methods. *)
Inductive tcall : Type -> Type :=
| OpenConnection (host : string) (port : Z) : tcall (reader * writer)
| Read (r : reader) (n : Z) : tcall bytes
| Readline (r : reader) : tcall bytes
| Readexactly (r : reader) (n : Z) : tcall bytes
| Readuntil (r : reader) (separator : bytes) : tcall bytes
| Write (w : writer) (data : bytes) : tcall unit
| Writelines (w : writer) (lines : list bytes) : tcall unit
| Drain (w : writer) : tcall unit
| Close (w : writer) : tcall unit
| WaitClosed (w : writer) : tcall unit.

Record Transport := {
  at_eof : reader -> world -> bool;
  perform : forall X, tcall X -> world -> result X * world
}.

(** ** The object *)

Record Socket := {
  host : string;
  port : Z;
  auto_reconnect : bool;
  connection_counter : Z;
  _reader : option reader;
  _writer : option writer;
  _lock : bool          (* asyncio.Lock: its [_locked] flag *)
}.

(** [Socket.__init__] *)
Definition __init__ (host : string) (port : Z) (auto_reconnect : bool) : Socket :=
  {| host := host;
     port := port;
     auto_reconnect := auto_reconnect;
     connection_counter := 0;
     _reader := None;
     _writer := None;
     _lock := false |}.

Definition set_reader (r : option reader) (s : Socket) : Socket :=
  {| host := host s; port := port s; auto_reconnect := auto_reconnect s;
     connection_counter := connection_counter s;
     _reader := r; _writer := _writer s; _lock := _lock s |}.

Definition set_writer (w : option writer) (s : Socket) : Socket :=
  {| host := host s; port := port s; auto_reconnect := auto_reconnect s;
     connection_counter := connection_counter s;
     _reader := _reader s; _writer := w; _lock := _lock s |}.

Definition set_counter (c : Z) (s : Socket) : Socket :=
  {| host := host s; port := port s; auto_reconnect := auto_reconnect s;
     connection_counter := c;
     _reader := _reader s; _writer := _writer s; _lock := _lock s |}.

Definition set_lock (b : bool) (s : Socket) : Socket :=
  {| host := host s; port := port s; auto_reconnect := auto_reconnect s;
     connection_counter := connection_counter s;
     _reader := _reader s; _writer := _writer s; _lock := b |}.

(** ** Programs *)

Inductive event : Type -> Type :=
| Acquire : event unit                      (* entering [async with self._lock] *)
| Release : event unit                      (* leaving it *)
| GetSelf : event Socket                    (* loading attributes of [self] *)
| SetReader (r : option reader) : event unit
| SetWriter (w : option writer) : event unit
| SetCounter (c : Z) : event unit
| AtEof (r : reader) : event bool
| Call {X} (c : tcall X) : event (result X).

Inductive prog (R : Type) : Type :=
| Ret (r : R)
| Raise (e : exn)
| Vis {X} (e : event X) (k : X -> prog R)
| Yield (line : bytes) (k : prog R).
Arguments Ret {R} r.
Arguments Raise {R} e.
Arguments Vis {R X} e k.
Arguments Yield {R} line k.

Fixpoint bind {A B} (p : prog A) (f : A -> prog B) : prog B :=
  match p with
  | Ret a => f a
  | Raise e => Raise e
  | Vis e k => Vis e (fun x => bind (k x) f)
  | Yield line k => Yield line (bind k f)
  end.

Definition trigger {X} (e : event X) : prog X := Vis e Ret.

Bind Scope prog_scope with prog.
Notation "x <- p ;; q" := (bind p (fun x => q))
  (at level 100, p at next level, q at level 200, right associativity) : prog_scope.
Notation "p ;; q" := (bind p (fun _ => q))
  (at level 100, q at level 200, right associativity) : prog_scope.
Local Open Scope prog_scope.

(** [await coro(args)]: perform the transport call, re-raise what it
    raised. *)
Definition await {X} (c : tcall X) : prog X :=
  x <- trigger (Call c) ;;
  match x with
  | Ok v => Ret v
  | Err name => Raise (TransportError name)
  end.

(** [obj.method(args)] without [await] ([write], [writelines], [close]):
    the call is performed on the spot; what it raises is re-raised. *)
Definition invoke {X} (c : tcall X) : prog X := await c.

(** [try: p finally: f] *)
Fixpoint finally {R} (p : prog R) (f : prog unit) : prog R :=
  match p with
  | Ret r => f ;; Ret r
  | Raise e => f ;; Raise e
  | Vis e k => Vis e (fun x => finally (k x) f)
  | Yield line k => Yield line (finally k f)
  end.

(** [async with self._lock: body] *)
Definition async_with_lock {R} (body : prog R) : prog R :=
  trigger Acquire ;; finally body (trigger Release).

(** [async for line in g: body line] *)
Fixpoint async_for {R} (g : prog R) (body : bytes -> prog unit) : prog unit :=
  match g with
  | Ret _ => Ret tt
  | Raise e => Raise e
  | Vis e k => Vis e (fun x => async_for (k x) body)
  | Yield line k => body line ;; async_for k body
  end.

(** [for i in range(n): body] *)
Fixpoint for_range (n : nat) (body : prog unit) : prog unit :=
  match n with
  | O => Ret tt
  | S n' => body ;; for_range n' body
  end.

(** [self._reader.<method>] and [self._writer.<method>]: the attribute is
    loaded and, when it is [None], the method lookup raises. *)
Definition load_reader : prog reader :=
  self <- trigger GetSelf ;;
  match _reader self with
  | Some r => Ret r
  | None => Raise AttributeError
  end.

Definition load_writer : prog writer :=
  self <- trigger GetSelf ;;
  match _writer self with
  | Some w => Ret w
  | None => Raise AttributeError
  end.

(** ** [class Socket] *)

(** [Socket.connected] (a property) *)
Definition connected : prog bool :=
  self <- trigger GetSelf ;;
  match _reader self with
  | None => Ret false
  | Some r =>
      eof <- trigger (AtEof r) ;;
      Ret (negb eof)
  end.

Definition already_open : string := "socket already open. must close it first".

(** [Socket.open] *)
Definition open : prog unit :=
  c <- connected ;;
  if c then Raise (ConnectionError already_open)
  else
    self <- trigger GetSelf ;;
    rw <- await (OpenConnection (host self) (port self)) ;;
    trigger (SetReader (Some (fst rw))) ;;
    trigger (SetWriter (Some (snd rw))) ;;
    self <- trigger GetSelf ;;
    trigger (SetCounter (connection_counter self + 1)).

(** [Socket.close] *)
Definition close : prog unit :=
  self <- trigger GetSelf ;;
  match _writer self with
  | Some _ =>
      w <- load_writer ;;
      invoke (Close w) ;;
      w <- load_writer ;;
      await (WaitClosed w)
  | None => Ret tt
  end ;;
  trigger (SetReader None) ;;
  trigger (SetWriter None).

(** ** [ensure_connection]

    The decorator looks at the shape of the function it wraps: a coroutine
    function or an async generator function. *)
Inductive pyfun :=
| CoroutineFunction (f : prog value)
| AsyncGenFunction (f : prog value).

Definition body_of (f : pyfun) : prog value :=
  match f with
  | CoroutineFunction f => f
  | AsyncGenFunction f => f
  end.

(** [if self.auto_reconnect and not self.connected: await self.open()],
    the statement both wrappers start with once inside the lock. *)
Definition reconnect_if_needed : prog unit :=
  self <- trigger GetSelf ;;
  if auto_reconnect self
  then c <- connected ;; if negb c then open else Ret tt
  else Ret tt.

Definition ensure_connection (f : pyfun) : prog value :=
  match f with
  | CoroutineFunction f =>
      async_with_lock (
        reconnect_if_needed ;;
        f)
  | AsyncGenFunction f =>
      async_gen <- async_with_lock (
        reconnect_if_needed ;;
        Ret f) ;;
      async_for async_gen (fun line => Yield line (Ret tt)) ;;
      Ret VNone
  end.

(** The methods as they are written, before decoration. *)

Definition f_read (n : Z) : pyfun :=
  CoroutineFunction (
    r <- load_reader ;;
    b <- await (Read r n) ;;
    Ret (VBytes b)).

Definition f_readline : pyfun :=
  CoroutineFunction (
    r <- load_reader ;;
    b <- await (Readline r) ;;
    Ret (VBytes b)).

Definition f_readlines (n : Z) : pyfun :=
  AsyncGenFunction (
    for_range (Z.to_nat n) (
      r <- load_reader ;;
      line <- await (Readline r) ;;
      Yield line (Ret tt)) ;;
    Ret VNone).

Definition f_readexactly (n : Z) : pyfun :=
  CoroutineFunction (
    r <- load_reader ;;
    b <- await (Readexactly r n) ;;
    Ret (VBytes b)).

Definition f_readuntil (separator : bytes) : pyfun :=
  CoroutineFunction (
    r <- load_reader ;;
    b <- await (Readuntil r separator) ;;
    Ret (VBytes b)).

Definition f_write (data : bytes) : pyfun :=
  CoroutineFunction (
    w <- load_writer ;;
    invoke (Write w data) ;;
    w <- load_writer ;;
    await (Drain w) ;;
    Ret VNone).

Definition f_writelines (lines : list bytes) : pyfun :=
  CoroutineFunction (
    w <- load_writer ;;
    invoke (Writelines w lines) ;;
    w <- load_writer ;;
    await (Drain w) ;;
    Ret VNone).

Definition f_write_readline (data : bytes) : pyfun :=
  CoroutineFunction (
    w <- load_writer ;;
    invoke (Write w data) ;;
    w <- load_writer ;;
    await (Drain w) ;;
    r <- load_reader ;;
    b <- await (Readline r) ;;
    Ret (VBytes b)).

Definition f_write_readlines (data : bytes) (n : Z) : pyfun :=
  AsyncGenFunction (
    w <- load_writer ;;
    invoke (Write w data) ;;
    w <- load_writer ;;
    await (Drain w) ;;
    for_range (Z.to_nat n) (
      r <- load_reader ;;
      line <- await (Readline r) ;;
      Yield line (Ret tt)) ;;
    Ret VNone).

Definition f_writelines_readlines (lines : list bytes) (n : option Z) : pyfun :=
  AsyncGenFunction (
    let n := match n with
             | None => Z.of_nat (length lines)
             | Some n => n
             end in
    w <- load_writer ;;
    invoke (Writelines w lines) ;;
    w <- load_writer ;;
    await (Drain w) ;;
    for_range (Z.to_nat n) (
      r <- load_reader ;;
      line <- await (Readline r) ;;
      Yield line (Ret tt)) ;;
    Ret VNone).

(** The public, decorated methods. *)
Definition read (n : Z) := ensure_connection (f_read n).
Definition readline := ensure_connection f_readline.
Definition readlines (n : Z) := ensure_connection (f_readlines n).
Definition readexactly (n : Z) := ensure_connection (f_readexactly n).
Definition readuntil (separator : bytes) := ensure_connection (f_readuntil separator).
Definition write (data : bytes) := ensure_connection (f_write data).
Definition writelines (lines : list bytes) := ensure_connection (f_writelines lines).
Definition write_readline (data : bytes) := ensure_connection (f_write_readline data).
Definition write_readlines (data : bytes) (n : Z) :=
  ensure_connection (f_write_readlines data n).
Definition writelines_readlines (lines : list bytes) (n : option Z) :=
  ensure_connection (f_writelines_readlines lines n).

(** A call of one of the ten public I/O methods, with its arguments. *)
Inductive op :=
| op_read (n : Z)
| op_readline
| op_readlines (n : Z)
| op_readexactly (n : Z)
| op_readuntil (separator : bytes)
| op_write (data : bytes)
| op_writelines (lines : list bytes)
| op_write_readline (data : bytes)
| op_write_readlines (data : bytes) (n : Z)
| op_writelines_readlines (lines : list bytes) (n : option Z).

Definition undecorated (o : op) : pyfun :=
  match o with
  | op_read n => f_read n
  | op_readline => f_readline
  | op_readlines n => f_readlines n
  | op_readexactly n => f_readexactly n
  | op_readuntil separator => f_readuntil separator
  | op_write data => f_write data
  | op_writelines lines => f_writelines lines
  | op_write_readline data => f_write_readline data
  | op_write_readlines data n => f_write_readlines data n
  | op_writelines_readlines lines n => f_writelines_readlines lines n
  end.

Definition call (o : op) : prog value :=
  match o with
  | op_read n => read n
  | op_readline => readline
  | op_readlines n => readlines n
  | op_readexactly n => readexactly n
  | op_readuntil separator => readuntil separator
  | op_write data => write data
  | op_writelines lines => writelines lines
  | op_write_readline data => write_readline data
  | op_write_readlines data n => write_readlines data n
  | op_writelines_readlines lines n => writelines_readlines lines n
  end.

Definition streaming (o : op) : bool :=
  match undecorated o with
  | AsyncGenFunction _ => true
  | CoroutineFunction _ => false
  end.

(** ** Running a program *)

Variable T : Transport.

Record state := {
  sock : Socket;
  net : world
}.

Definition with_sock (f : Socket -> Socket) (st : state) : state :=
  {| sock := f (sock st); net := net st |}.

(** One event against the object and the world.  [None]: the event cannot
    happen now, which is only the case of [Acquire] on a locked lock. *)
Definition handle {X} (e : event X) (st : state) : option (X * state) :=
  match e in event X return option (X * state) with
  | Acquire =>
      if _lock (sock st) then None
      else Some (tt, with_sock (set_lock true) st)
  | Release => Some (tt, with_sock (set_lock false) st)
  | GetSelf => Some (sock st, st)
  | SetReader r => Some (tt, with_sock (set_reader r) st)
  | SetWriter w => Some (tt, with_sock (set_writer w) st)
  | SetCounter c => Some (tt, with_sock (set_counter c) st)
  | AtEof r => Some (at_eof T r (net st), st)
  | Call c =>
      let '(x, net') := perform T c (net st) in
      Some (x, {| sock := sock st; net := net' |})
  end.

(** A single caller running [p] to its end; the lines it yields on the
    way are collected in order. *)
Fixpoint run {R} (p : prog R) (st : state) : outcome R * list bytes * state :=
  match p with
  | Ret r => (Returned r, [], st)
  | Raise e => (Raised e, [], st)
  | Vis e k =>
      match handle e st with
      | None => (Blocked, [], st)
      | Some (x, st') => run (k x) st'
      end
  | Yield line k =>
      let '(o, lines, st') := run k st in (o, line :: lines, st')
  end.

(** The value of the [connected] property in [st]. *)
Definition connected_now (st : state) : bool :=
  match run connected st with
  | (Returned c, _, _) => c
  | _ => false
  end.

(** What the stores of a successful [open] make of the object. *)
Definition connect_to (r : reader) (w : writer) (s : Socket) : Socket :=
  set_counter (connection_counter s + 1) (set_writer (Some w) (set_reader (Some r) s)).

(** What the stores of [close] make of it. *)
Definition forget (s : Socket) : Socket :=
  set_writer None (set_reader None s).

(** A transport that answers every call as long as the world stays
    within [good]. *)
Definition dependable (good : world -> Prop) : Prop :=
  forall X (c : tcall X) w, good w ->
    exists v w', perform T c w = (Ok v, w') /\ good w'.

(** ** Shapes of programs *)

(** Programs that return nothing but [v]. *)
Fixpoint returns_only {R} (v : R) (p : prog R) : Prop :=
  match p with
  | Ret r => r = v
  | Raise _ => True
  | Vis _ k => forall x, returns_only v (k x)
  | Yield _ k => returns_only v k
  end.


Definition is_open {X} (c : tcall X) : bool :=
  match c with
  | OpenConnection _ _ => true
  | _ => false
  end.

Definition is_lock_event {X} (e : event X) : bool :=
  match e with
  | Acquire | Release => true
  | _ => false
  end.

(** The shape of the method bodies: they load attributes of [self]
    without looking at the lock, call the transport on what they loaded,
    and yield. *)
Inductive plain {R : Type} : prog R -> Prop :=
| plain_ret (r : R) : plain (Ret r)
| plain_raise (e : exn) : plain (Raise e)
| plain_self (k : Socket -> prog R) :
    (forall s b, k (set_lock b s) = k s) ->
    (forall s, plain (k s)) ->
    plain (Vis GetSelf k)
| plain_call X (c : tcall X) (k : result X -> prog R) :
    is_open c = false ->
    (forall x, plain (k x)) ->
    plain (Vis (Call c) k)
| plain_yield (line : bytes) (k : prog R) :
    plain k -> plain (Yield line k).

(** Programs that, run on the object [s], raise only what the transport
    raised. *)
Inductive sound (s : Socket) {R : Type} : prog R -> Prop :=
| sound_ret (r : R) : sound s (Ret r)
| sound_self (k : Socket -> prog R) :
    sound s (k s) -> sound s (Vis GetSelf k)
| sound_call X (c : tcall X) (k : result X -> prog R) :
    (forall v, sound s (k (Ok v))) ->
    (forall name, k (Err name) = Raise (TransportError name)) ->
    sound s (Vis (Call c) k)
| sound_yield (line : bytes) (k : prog R) :
    sound s k -> sound s (Yield line k).

(** Programs that never touch the lock. *)
Fixpoint inside {R} (p : prog R) : Prop :=
  match p with
  | Ret _ | Raise _ => True
  | Vis e k => is_lock_event e = false /\ forall x, inside (k x)
  | Yield _ k => inside k
  end.

(** ** Several callers on one object

    Each caller is a task running one public method.  A scheduler chooses
    which task performs its next event; a task whose next event is
    [Acquire] on a locked lock cannot be chosen.  The event loop of asyncio
    switches tasks only where a task suspends (an [await] that has to
    wait, a [yield] handing a line to a consumer that then waits); letting
    the scheduler choose before every event covers all those runs.
    [held] records that the task is inside its [async with self._lock]
    block, [produced] the lines it has handed to its consumer so far. *)

Record task := {
  origin : op;
  code : prog value;
  held : bool;
  produced : list bytes
}.

Definition spawn (o : op) : task :=
  {| origin := o; code := call o; held := false; produced := [] |}.

Record system := {
  shared : state;
  tasks : list task
}.

Definition start (ops : list op) (st : state) : system :=
  {| shared := st; tasks := map spawn ops |}.

Definition holds_after {X} (e : event X) (h : bool) : bool :=
  match e with
  | Acquire => true
  | Release => false
  | _ => h
  end.

Definition finished (t : task) : bool :=
  match code t with
  | Ret _ | Raise _ => true
  | _ => false
  end.

Definition step_task (t : task) (st : state) : option (task * state) :=
  match code t with
  | Ret _ | Raise _ => None
  | Vis e k =>
      match handle e st with
      | None => None
      | Some (x, st') =>
          Some ({| origin := origin t; code := k x;
                   held := holds_after e (held t);
                   produced := produced t |}, st')
      end
  | Yield line k =>
      Some ({| origin := origin t; code := k; held := held t;
               produced := produced t ++ [line] |}, st)
  end.

(** Cancelling a task, or dropping the sequence it produces: the task
    ends, and [async with] gives the lock back when the task was inside. *)
Definition cancel_task (t : task) (st : state) : option (task * state) :=
  if finished t then None
  else Some ({| origin := origin t; code := Raise CancelledError;
                held := false; produced := produced t |},
             if held t then with_sock (set_lock false) st else st).

Inductive move :=
| Run (i : nat)            (* task [i] performs its next event *)
| Cancel (i : nat)         (* task [i] is cancelled or its sequence abandoned *)
| Env (w : world).         (* the outside world changes by itself *)

Definition step (m : move) (c : system) : option system :=
  match m with
  | Run i =>
      match tasks c !! i with
      | None => None
      | Some t =>
          match step_task t (shared c) with
          | None => None
          | Some (t', st') => Some {| shared := st'; tasks := <[i:=t']> (tasks c) |}
          end
      end
  | Cancel i =>
      match tasks c !! i with
      | None => None
      | Some t =>
          match cancel_task t (shared c) with
          | None => None
          | Some (t', st') => Some {| shared := st'; tasks := <[i:=t']> (tasks c) |}
          end
      end
  | Env w =>
      Some {| shared := {| sock := sock (shared c); net := w |}; tasks := tasks c |}
  end.

Fixpoint exec (ms : list move) (c : system) : option system :=
  match ms with
  | [] => Some c
  | m :: ms' =>
      match step m c with
      | None => None
      | Some c' => exec ms' c'
      end
  end.

(** The events of a call of [o] that belong to its critical section: the
    implicit reconnect (the [connected] test, [open_connection] and the
    stores of [open]) for every method, and every transport call for the
    methods that are coroutine functions. *)
Definition needs_gate (o : op) {X} (e : event X) : bool :=
  match e with
  | SetReader _ | SetWriter _ | SetCounter _ | AtEof _ => true
  | Call c =>
      match c with
      | OpenConnection _ _ => true
      | _ => negb (streaming o)
      end
  | _ => false
  end.

(** What a task may do next given whether it is inside the lock. *)
Definition allowed (o : op) {X} (e : event X) (h : bool) : bool :=
  match e with
  | Acquire => negb h
  | Release => h
  | _ => implb (needs_gate o e) h
  end.

Fixpoint disciplined {R} (o : op) (h : bool) (p : prog R) : Prop :=
  match p with
  | Ret _ | Raise _ => h = false
  | Vis e k => allowed o e h = true /\ forall x, disciplined o (holds_after e h) (k x)
  | Yield _ k => disciplined o h k
  end.

(** No task is inside the lock. *)
Definition unheld (l : list task) : Prop :=
  forall i t, l !! i = Some t -> held t = false.

(** At most one task is inside the lock. *)
Definition exclusive (l : list task) : Prop :=
  forall i j ti tj,
    l !! i = Some ti -> l !! j = Some tj ->
    held ti = true -> held tj = true -> i = j.

(** The invariant of the interleaved runs. *)
Definition orderly (c : system) : Prop :=
  (_lock (sock (shared c)) = false -> unheld (tasks c)) /\
  exclusive (tasks c) /\
  (forall i t, tasks c !! i = Some t -> disciplined (origin t) (held t) (code t)).

(** ** The specification's reading of the streaming reads

    [count] lines are read one after the other; the first failure ends
    the reading. *)
Fixpoint spec_read_lines (r : reader) (count : nat) (w : world)
  : result (list bytes) * world :=
  match count with
  | O => (Ok [], w)
  | S count' =>
      match perform T (Readline r) w with
      | (Ok line, w') =>
          match spec_read_lines r count' w' with
          | (Ok lines, w'') => (Ok (line :: lines), w'')
          | (Err name, w'') => (Err name, w'')
          end
      | (Err name, w') => (Err name, w')
      end
  end.

End Model.

Arguments Ret {reader writer R} r.
Arguments Raise {reader writer R} e.
Arguments Vis {reader writer R X} e k.
Arguments Yield {reader writer R} line k.

Notation "x <- p ;; q" := (bind p (fun x => q))
  (at level 100, p at next level, q at level 200, right associativity) : prog_scope.
Notation "p ;; q" := (bind p (fun _ => q))
  (at level 100, q at level 200, right associativity) : prog_scope.

(** ** A scripted transport

    A stand-in for asyncio used to run the methods on concrete inputs:
    connections are numbered, the peer answers from a list of prepared
    lines; once the list is used up it either repeats one line for ever
    or signals end-of-stream. *)
Module Fake.

Record net := {
  refusing : bool;            (* open_connection raises *)
  connections : nat;          (* connections accepted so far *)
  replies : list bytes;       (* lines the peer will still send *)
  chatter : option bytes;     (* what it sends once [replies] is used up *)
  ended : list nat;           (* connections at end-of-stream *)
  received : list bytes;      (* blocks the peer received, oldest first *)
  closed : list nat;          (* connections whose writer was closed *)
  reset_on_close : bool       (* wait_closed raises *)
}.

Definition is_ended (r : nat) (w : net) : bool := existsb (Nat.eqb r) (ended w).

Definition next_line (w : net) : option bytes :=
  match replies w with
  | line :: _ => Some line
  | [] => chatter w
  end.

Definition accept (w : net) : net :=
  {| refusing := refusing w; connections := S (connections w);
     replies := replies w; chatter := chatter w; ended := ended w;
     received := received w;
     closed := closed w; reset_on_close := reset_on_close w |}.

Definition pop (r : nat) (w : net) : net :=
  {| refusing := refusing w; connections := connections w;
     replies := tail (replies w); chatter := chatter w;
     ended := match next_line w with None => r :: ended w | Some _ => ended w end;
     received := received w;
     closed := closed w; reset_on_close := reset_on_close w |}.

Definition push (blocks : list bytes) (w : net) : net :=
  {| refusing := refusing w; connections := connections w;
     replies := replies w; chatter := chatter w; ended := ended w;
     received := received w ++ blocks;
     closed := closed w; reset_on_close := reset_on_close w |}.

Definition shut (c : nat) (w : net) : net :=
  {| refusing := refusing w; connections := connections w;
     replies := replies w; chatter := chatter w; ended := ended w;
     received := received w;
     closed := c :: closed w; reset_on_close := reset_on_close w |}.

Definition end_stream (r : nat) (w : net) : net :=
  {| refusing := refusing w; connections := connections w;
     replies := replies w; chatter := chatter w; ended := r :: ended w;
     received := received w;
     closed := closed w; reset_on_close := reset_on_close w |}.

(** A read that is content with whatever is there ([read], [readline]). *)
Definition lenient (r : nat) (w : net) : result bytes * net :=
  if is_ended r w then (Ok [], w)
  else match next_line w with
       | None => (Ok [], pop r w)
       | Some line => (Ok line, pop r w)
       end.

(** A read that needs its data ([readexactly], [readuntil]). *)
Definition demanding (r : nat) (w : net) : result bytes * net :=
  if is_ended r w then (Err "IncompleteReadError", w)
  else match next_line w with
       | None => (Err "IncompleteReadError", pop r w)
       | Some line => (Ok line, pop r w)
       end.

Definition answer X (c : @tcall nat nat X) (w : net) : result X * net :=
  match c in tcall X return result X * net with
  | OpenConnection _ _ =>
      if refusing w then (Err "ConnectionRefusedError", w)
      else (Ok (connections w, connections w), accept w)
  | Read r _ => lenient r w
  | Readline r => lenient r w
  | Readexactly r _ => demanding r w
  | Readuntil r _ => demanding r w
  | Write _ data => (Ok tt, push [data] w)
  | Writelines _ lines => (Ok tt, push lines w)
  | Drain _ => (Ok tt, w)
  | Close c => (Ok tt, shut c w)
  | WaitClosed _ =>
      if reset_on_close w then (Err "ConnectionResetError", w) else (Ok tt, w)
  end.

Definition transport : @Transport nat nat net :=
  {| at_eof := is_ended; perform := answer |}.

(** A peer that accepts connections, sends [lines], then ends the stream. *)
Definition serving (lines : list bytes) : net :=
  {| refusing := false; connections := 0; replies := lines; chatter := None;
     ended := []; received := []; closed := []; reset_on_close := false |}.

(** A peer that accepts connections and sends [line] again and again. *)
Definition repeating (line : bytes) : net :=
  {| refusing := false; connections := 0; replies := []; chatter := Some line;
     ended := []; received := []; closed := []; reset_on_close := false |}.

(** A peer on which closing reports a connection reset. *)
Definition resetting : net :=
  {| refusing := false; connections := 0; replies := []; chatter := None;
     ended := []; received := []; closed := []; reset_on_close := true |}.

(** The worlds in which this transport answers every call. *)
Definition healthy (w : net) : Prop :=
  refusing w = false /\ reset_on_close w = false /\ ended w = [] /\
  exists line, chatter w = Some line.

End Fake.

Definition b (s : string) : bytes := String.list_byte_of_string s.

(** A freshly constructed [Socket("dev", 5000, auto_reconnect)] facing [w]. *)
Definition fresh (auto_reconnect : bool) (w : Fake.net) : @state nat nat Fake.net :=
  {| sock := __init__ "dev" 5000 auto_reconnect; net := w |}.

(** The state a single caller leaves behind. *)
Definition after {reader writer world R} (T : @Transport reader writer world)
    (p : prog R) (st : state) : state :=
  snd (run T p st).

(** What can be seen of an interleaved run: the lock flag, and for each
    task the lines it has produced, whether it is inside the lock and
    whether it has ended. *)
Definition observe {reader writer world} (c : @system reader writer world)
  : bool * list (list bytes * bool * bool) :=
  (_lock (sock (shared c)),
   map (fun t => (produced t, held t, finished t)) (tasks c)).

(** Two callers: one consumes [readlines(2)], the other calls [write]. *)
Definition two_callers : @system nat nat Fake.net :=
  start [op_readlines 2; op_write (b "PING")]
        (fresh true (Fake.serving [b "A"; b "B"])).

(** The same two callers once the first has received one line and the
    second has entered its [async with] block and loaded the writer. *)
Definition one_line_in : list (@move Fake.net) := repeat (Run 0%nat) 14.
Definition writer_enters : list (@move Fake.net) := repeat (Run 1%nat) 5.
Definition writer_finishes : list (@move Fake.net) := repeat (Run 1%nat) 4.
Definition reader_resumes : list (@move Fake.net) := repeat (Run 0%nat) 3.

Local Open Scope prog_scope.

(** An object connected to a peer that will send two lines. *)
Definition talking : @state nat nat Fake.net :=
  after Fake.transport open (fresh false (Fake.serving [b "X"; b "Y"])).

(** An object connected to a peer on which closing reports a reset. *)
Definition doomed : @state nat nat Fake.net :=
  after Fake.transport open (fresh false Fake.resetting).

(** An object with [auto_reconnect] whose peer has ended the stream. *)
Definition stale : @state nat nat Fake.net :=
  {| sock := sock (after Fake.transport open (fresh true (Fake.serving [])));
     net := Fake.end_stream 0
              (net (after Fake.transport open (fresh true (Fake.serving [])))) |}.

(** ** Using the object *)

Section Usage.

Context {reader writer world : Type} (T : @Transport reader writer world).

(** Both handles are there, or neither. *)
Definition paired (s : @Socket reader writer) : Prop :=
  _reader s = None <-> _writer s = None.

(** The address and the reconnect policy are those of [s]. *)
Definition same_address (s s' : @Socket reader writer) : Prop :=
  host s' = host s /\ port s' = port s /\ auto_reconnect s' = auto_reconnect s.

(** What a caller can do with the object. *)
Inductive action :=
| do_open
| do_close
| do_call (o : op).

Definition api (a : action) : @prog reader writer value :=
  match a with
  | do_open => open ;; Ret VNone
  | do_close => close ;; Ret VNone
  | do_call o => call o
  end.

(** A single caller doing one thing after the other, going on after an
    exception; each step is recorded with how it ended and what it
    yielded. *)
Fixpoint session (l : list action) (st : @state reader writer world)
  : list (outcome value * list bytes) * state :=
  match l with
  | [] => ([], st)
  | a :: l' =>
      let '(o, lines, st1) := run T (api a) st in
      let '(rest, st2) := session l' st1 in
      ((o, lines) :: rest, st2)
  end.

(** The transport call behind each of the four plain reads. *)
Definition read_call (o : op) (r : reader) : option (@tcall reader writer bytes) :=
  match o with
  | op_read n => Some (Read r n)
  | op_readline => Some (Readline r)
  | op_readexactly n => Some (Readexactly r n)
  | op_readuntil separator => Some (Readuntil r separator)
  | _ => None
  end.

(** The transport call that [write] and [writelines] make before [drain]. *)
Definition write_call (o : op) (w : writer) : option (@tcall reader writer unit) :=
  match o with
  | op_write data => Some (Write w data)
  | op_writelines lines => Some (Writelines w lines)
  | _ => None
  end.

(** *** The specification's table of operations

    Each operation read as calls on the connection, in the order the
    table gives them: the value it results in, the lines of its
    sequence, and the world left; the first call that fails ends it. *)
Definition spec_then {A B} (x : result A * world)
    (f : A -> world -> result B * world) : result B * world :=
  match x with
  | (Ok a, w) => f a w
  | (Err name, w) => (Err name, w)
  end.

Definition spec_block (x : result bytes * world)
  : result (value * list bytes) * world :=
  spec_then x (fun data w => (Ok (VBytes data, []), w)).

Definition spec_lines (x : result (list bytes) * world)
  : result (value * list bytes) * world :=
  spec_then x (fun lines w => (Ok (VNone, lines), w)).

Definition spec_flushed (x : result unit * world) (wr : writer)
  : result unit * world :=
  spec_then x (fun _ w => perform T (Drain wr) w).

Definition spec_operation (o : op) (r : reader) (wr : writer) (w : world)
  : result (value * list bytes) * world :=
  match o with
  | op_read n => spec_block (perform T (Read r n) w)
  | op_readline => spec_block (perform T (Readline r) w)
  | op_readlines count => spec_lines (spec_read_lines T r (Z.to_nat count) w)
  | op_readexactly n => spec_block (perform T (Readexactly r n) w)
  | op_readuntil separator => spec_block (perform T (Readuntil r separator) w)
  | op_write data =>
      spec_then (spec_flushed (perform T (Write wr data) w) wr)
        (fun _ w' => (Ok (VNone, []), w'))
  | op_writelines lines =>
      spec_then (spec_flushed (perform T (Writelines wr lines) w) wr)
        (fun _ w' => (Ok (VNone, []), w'))
  | op_write_readline data =>
      spec_then (spec_flushed (perform T (Write wr data) w) wr)
        (fun _ w' => spec_block (perform T (Readline r) w'))
  | op_write_readlines data count =>
      spec_then (spec_flushed (perform T (Write wr data) w) wr)
        (fun _ w' => spec_lines (spec_read_lines T r (Z.to_nat count) w'))
  | op_writelines_readlines lines count =>
      spec_then (spec_flushed (perform T (Writelines wr lines) w) wr)
        (fun _ w' =>
           spec_lines
             (spec_read_lines T r
                (Z.to_nat (match count with
                           | None => Z.of_nat (length lines)
                           | Some count => count
                           end)) w'))
  end.

(** [count] lines read one after the other until one read raises: the
    lines read so far, what was raised if anything, and the world left. *)
Fixpoint read_lines_until_error (r : reader) (count : nat) (w : world)
  : list bytes * option string * world :=
  match count with
  | O => ([], None, w)
  | S count' =>
      match perform T (Readline r) w with
      | (Ok line, w') =>
          let '(lines, e, w'') := read_lines_until_error r count' w' in
          (line :: lines, e, w'')
      | (Err name, w') => ([], Some name, w')
      end
  end.

Definition stream_end (e : option string) : outcome value :=
  match e with
  | None => Returned VNone
  | Some name => Raised (TransportError name)
  end.

(** *** Counting connections under interleaving

    [counts h n p]: run by a task that is inside the lock ([h]) while the
    counter is [n], or outside it, [p] stores into [connection_counter]
    only inside the lock and only values that are not below the value it
    has then. *)
Definition may_store {X} (e : @event reader writer X) (h : bool) (n : Z) : Prop :=
  match e with
  | SetCounter v => h = true /\ n <= v
  | _ => True
  end.

Definition sees {X} (e : @event reader writer X) (h : bool) (n : Z) : X -> Prop :=
  match e in event X return X -> Prop with
  | GetSelf => fun s => h = true -> connection_counter s = n
  | _ => fun _ => True
  end.

Definition counter_after {X} (e : @event reader writer X) (n n' : Z) : Prop :=
  match e with
  | Acquire | Release => True
  | SetCounter v => n' = v
  | _ => n' = n
  end.

Fixpoint counts {R} (h : bool) (n : Z) (p : @prog reader writer R) : Prop :=
  match p with
  | Ret _ | Raise _ => True
  | Vis e k =>
      may_store e h n /\
      forall x, sees e h n x ->
      forall n', counter_after e n n' -> counts (holds_after e h) n' (k x)
  | Yield _ k => counts h n k
  end.

(** The invariant: the task inside the lock, if any, is consistent with
    the present value of the counter. *)
Definition counting (c : @system reader writer world) : Prop :=
  forall i t, tasks c !! i = Some t ->
    if held t
    then counts true (connection_counter (sock (shared c))) (code t)
    else forall n, counts false n (code t).

(** *** Where the streaming methods do their work *)

(** A call to the transport other than [open_connection]. *)
Definition body_event {X} (e : @event reader writer X) : bool :=
  match e with
  | Call c => negb (is_open c)
  | _ => false
  end.

(** Programs that neither touch the lock, nor call the transport except
    to connect, nor yield. *)
Fixpoint quiet {R} (p : @prog reader writer R) : Prop :=
  match p with
  | Ret _ | Raise _ => True
  | Vis e k =>
      is_lock_event e = false /\ body_event e = false /\ forall x, quiet (k x)
  | Yield _ k => False
  end.

(** [unguarded h p]: run by a task that is inside the lock or not ([h]),
    [p] reads, writes, drains and yields only outside the lock. *)
Fixpoint unguarded {R} (h : bool) (p : @prog reader writer R) : Prop :=
  match p with
  | Ret _ | Raise _ => True
  | Vis e k =>
      (body_event e = true -> h = false) /\
      forall x, unguarded (holds_after e h) (k x)
  | Yield _ k => h = false /\ unguarded h k
  end.

(** No caller is left inside a lock it cannot leave: a taken lock has an
    owner among the tasks. *)
Definition owned (c : @system reader writer world) : Prop :=
  _lock (sock (shared c)) = true ->
  exists i t, tasks c !! i = Some t /\ held t = true.

End Usage.

(** ** The command line entry point *)

Module cli.

(** What [argparse] hands to the callback. *)
Record options (str : Type) := {
  host : string;
  port : Z;
  request : str
}.
Arguments host {str} _.
Arguments port {str} _.
Arguments request {str} _.

Section App.

Context {reader writer world : Type} (T : @Transport reader writer world).
Context {str : Type} (encode : str -> bytes).

(** [app]: [run()] under [asyncio.run], from the world [w]; what is
    returned here is what [print] is given. *)
Definition app (options : options str) (w : world)
  : outcome value * list bytes * @state reader writer world :=
  let sock := __init__ (host options) (port options) true in
  run T (write_readline (encode (request options))) {| sock := sock; net := w |}.

End App.

End cli.

(** ** More scripted situations *)

(** A peer that refuses connections. *)
Definition deaf : Fake.net :=
  {| Fake.refusing := true; Fake.connections := 0; Fake.replies := [];
     Fake.chatter := None; Fake.ended := []; Fake.received := [];
     Fake.closed := []; Fake.reset_on_close := false |}.

(** The consumer of [readlines(2)] up to its first read, the line not yet
    handed over. *)
Definition first_read : list (@move Fake.net) := repeat (Run 0%nat) 13.

(** A caller who opens, asks twice, closes twice and asks again. *)
Definition errands : list action :=
  [do_open; do_call (op_write_readline (b "*IDN?")); do_call (op_readlines 2);
   do_close; do_close; do_call op_readline].

(** Options as [main] hands them to [app] for
    [--host dev --port 5000 --request *IDN?]. *)
Definition idn : cli.options string :=
  {| cli.host := "dev"; cli.port := 5000; cli.request := "*IDN?" |}.

(** * Properties *)

Section Sequential.

Context {reader writer world : Type} (T : @Transport reader writer world).
Implicit Types (st : @state reader writer world) (s : @Socket reader writer).
Local Abbreviation prog := (@prog reader writer).
Local Abbreviation tcall := (@tcall reader writer).
Local Abbreviation streaming := (@streaming reader writer).

Lemma run_bind {A B} (p : prog A) (f : A -> prog B) st :
  run T (bind p f) st =
  match run T p st with
  | (Returned a, lines, st1) =>
      let '(o, lines2, st2) := run T (f a) st1 in (o, lines ++ lines2, st2)
  | (Raised e, lines, st1) => (Raised e, lines, st1)
  | (Blocked, lines, st1) => (Blocked, lines, st1)
  end.
Proof.
  revert st; induction p as [a|e|X e k IH|line k IH]; intros st; simpl.
  - destruct (run T (f a) st) as [[o l] st2]; reflexivity.
  - reflexivity.
  - destruct (handle T e st) as [[x st']|]; [apply IH | reflexivity].
  - rewrite IH. destruct (run T k st) as [[[a|e|] l] st1]; try reflexivity.
    destruct (run T (f a) st1) as [[o l2] st2]; reflexivity.
Qed.

Lemma run_finally_release {R} (p : prog R) st :
  run T (finally p (trigger Release)) st =
  match run T p st with
  | (Blocked, lines, st1) => (Blocked, lines, st1)
  | (o, lines, st1) => (o, lines, with_sock (set_lock false) st1)
  end.
Proof.
  revert st; induction p as [a|e|X e k IH|line k IH]; intros st; simpl.
  - reflexivity.
  - reflexivity.
  - destruct (handle T e st) as [[x st']|]; [apply IH | reflexivity].
  - rewrite IH. destruct (run T k st) as [[[a|e|] l] st1]; reflexivity.
Qed.

Lemma run_async_for_yield {R} (g : prog R) st :
  run T (async_for g (fun line => Yield line (Ret tt))) st =
  match run T g st with
  | (Returned _, lines, st1) => (Returned tt, lines, st1)
  | (Raised e, lines, st1) => (Raised e, lines, st1)
  | (Blocked, lines, st1) => (Blocked, lines, st1)
  end.
Proof.
  revert st; induction g as [a|e|X e k IH|line k IH]; intros st; simpl.
  - reflexivity.
  - reflexivity.
  - destruct (handle T e st) as [[x st']|]; [apply IH | reflexivity].
  - rewrite IH. destruct (run T k st) as [[[a|e|] l] st1]; reflexivity.
Qed.

(** *** The lifecycle methods, in closed form *)

Lemma connected_now_eq st :
  connected_now T st =
  match _reader (sock st) with
  | None => false
  | Some r => negb (at_eof T r (net st))
  end.
Proof.
  unfold connected_now, connected; simpl.
  destruct (_reader (sock st)); reflexivity.
Qed.

Lemma run_connected st :
  run T connected st = (Returned (connected_now T st), [], st).
Proof.
  rewrite connected_now_eq. unfold connected; simpl.
  destruct (_reader (sock st)); reflexivity.
Qed.

Lemma run_open st :
  run T open st =
  if connected_now T st then (Raised (ConnectionError already_open), [], st)
  else
    match perform T (OpenConnection (host (sock st)) (port (sock st))) (net st) with
    | (Ok (r, w), net') =>
        (Returned tt, [], {| sock := connect_to r w (sock st); net := net' |})
    | (Err name, net') =>
        (Raised (TransportError name), [], {| sock := sock st; net := net' |})
    end.
Proof.
  unfold open. rewrite run_bind, run_connected.
  destruct (connected_now T st); simpl; [reflexivity|].
  destruct (perform T _ (net st)) as [[[r w]|name] net']; reflexivity.
Qed.

Lemma run_close st :
  run T close st =
  match _writer (sock st) with
  | None => (Returned tt, [], with_sock forget st)
  | Some w =>
      match perform T (Close w) (net st) with
      | (Err name, n1) =>
          (Raised (TransportError name), [], {| sock := sock st; net := n1 |})
      | (Ok _, n1) =>
          match perform T (WaitClosed w) n1 with
          | (Err name, n2) =>
              (Raised (TransportError name), [], {| sock := sock st; net := n2 |})
          | (Ok _, n2) =>
              (Returned tt, [], {| sock := forget (sock st); net := n2 |})
          end
      end
  end.
Proof.
  unfold close; simpl.
  destruct (_writer (sock st)) as [w|] eqn:Hw; simpl; [|reflexivity].
  rewrite Hw; simpl.
  destruct (perform T (Close w) (net st)) as [[[]|name] n1]; simpl; [|reflexivity].
  rewrite Hw; simpl.
  destruct (perform T (WaitClosed w) n1) as [[[]|name] n2]; reflexivity.
Qed.

Lemma run_reconnect_if_needed st :
  run T reconnect_if_needed st =
  if auto_reconnect (sock st) && negb (connected_now T st)
  then run T open st
  else (Returned tt, [], st).
Proof.
  unfold reconnect_if_needed. rewrite run_bind.
  change (run T (trigger GetSelf) st) with (Returned (sock st), @nil bytes, st).
  cbv beta iota.
  destruct (auto_reconnect (sock st)); [|reflexivity].
  rewrite run_bind, run_connected.
  destruct (connected_now T st); [reflexivity|].
  cbn [negb andb]. destruct (run T open st) as [[o l] st1]; reflexivity.
Qed.

(** The reconnect yields nothing, leaves the lock flag alone and does not
    look at it. *)
Lemma run_reconnect_shape st :
  exists o st1,
    run T reconnect_if_needed st = (o, [], st1) /\
    o <> Blocked /\
    _lock (sock st1) = _lock (sock st) /\
    forall b, run T reconnect_if_needed (with_sock (set_lock b) st)
              = (o, [], with_sock (set_lock b) st1).
Proof.
  assert (Hc : forall b, connected_now T (with_sock (set_lock b) st) = connected_now T st)
    by (intros; rewrite !connected_now_eq; reflexivity).
  assert (Hr : forall b, run T reconnect_if_needed (with_sock (set_lock b) st) =
     if auto_reconnect (sock st) && negb (connected_now T st)
     then run T open (with_sock (set_lock b) st)
     else (Returned tt, [], with_sock (set_lock b) st))
    by (intros; rewrite run_reconnect_if_needed, Hc; reflexivity).
  assert (Ho : forall b, run T open (with_sock (set_lock b) st) =
     if connected_now T st
     then (Raised (ConnectionError already_open), [], with_sock (set_lock b) st)
     else
       match perform T (OpenConnection (host (sock st)) (port (sock st))) (net st) with
       | (Ok (r, w), net') =>
           (Returned tt, [],
            with_sock (set_lock b) {| sock := connect_to r w (sock st); net := net' |})
       | (Err name, net') =>
           (Raised (TransportError name), [],
            with_sock (set_lock b) {| sock := sock st; net := net' |})
       end).
  { intros b. rewrite run_open, Hc. destruct (connected_now T st); [reflexivity|].
    simpl. destruct (perform T _ (net st)) as [[[r w]|name] net']; reflexivity. }
  rewrite run_reconnect_if_needed, run_open.
  destruct (auto_reconnect (sock st)) eqn:A, (connected_now T st) eqn:C; cbn [andb negb].
  - exists (Returned tt), st. repeat split; try discriminate.
    intros b; rewrite Hr, ?A, ?C; reflexivity.
  - destruct (perform T (OpenConnection (host (sock st)) (port (sock st))) (net st))
      as [[[r w]|name] net'] eqn:P.
    + eexists _, _. repeat split; try discriminate.
      intros b; rewrite Hr, ?A, ?C; cbn [andb negb]. rewrite Ho, ?C, ?P; reflexivity.
    + eexists _, _. repeat split; try discriminate.
      intros b; rewrite Hr, ?A, ?C; cbn [andb negb]. rewrite Ho, ?C, ?P; reflexivity.
  - exists (Returned tt), st. repeat split; try discriminate.
    intros b; rewrite Hr, ?A, ?C; reflexivity.
  - exists (Returned tt), st. repeat split; try discriminate.
    intros b; rewrite Hr, ?A, ?C; reflexivity.
Qed.

(** *** The method bodies *)

Lemma plain_bind {A B} (p : prog A) (f : A -> prog B) :
  plain p -> (forall a, plain (f a)) -> plain (bind p f).
Proof.
  intros Hp Hf; induction Hp as [a|e|k Hk Hp IH|X c k Hc Hp IH|line k Hp IH]; simpl.
  - apply Hf.
  - constructor.
  - constructor; [intros s b; rewrite Hk; reflexivity | exact IH].
  - constructor; [exact Hc | exact IH].
  - constructor; exact IH.
Qed.

Lemma plain_load_reader : plain (@load_reader reader writer).
Proof.
  apply plain_self; [reflexivity|].
  intros s; simpl; destruct (_reader s); constructor.
Qed.

Lemma plain_load_writer : plain (@load_writer reader writer).
Proof.
  apply plain_self; [reflexivity|].
  intros s; simpl; destruct (_writer s); constructor.
Qed.

Lemma plain_await {X} (c : tcall X) :
  is_open c = false -> plain (await c).
Proof.
  intros Hc; apply plain_call; [exact Hc|].
  intros [v|name]; constructor.
Qed.

Lemma plain_for_range (n : nat) (body : prog unit) :
  plain body -> plain (for_range n body).
Proof.
  intros Hb; induction n as [|n IH]; simpl; [constructor|].
  apply plain_bind; [exact Hb | intros _; exact IH].
Qed.

Ltac shape_plain :=
  repeat first
    [ apply plain_load_reader | apply plain_load_writer
    | apply plain_await; reflexivity
    | apply plain_for_range | apply plain_bind
    | apply plain_yield | apply plain_ret | intro ].

Lemma plain_body (o : op) : plain (@body_of reader writer (undecorated o)).
Proof. destruct o; cbn [undecorated]; unfold body_of; cbv beta delta [f_read f_readline f_readlines f_readexactly f_readuntil f_write f_writelines f_write_readline f_write_readlines f_writelines_readlines] iota zeta; shape_plain. Qed.

Lemma sound_bind s {A B} (p : prog A) (f : A -> prog B) :
  sound s p -> (forall a, sound s (f a)) -> sound s (bind p f).
Proof.
  intros Hp Hf; induction Hp as [a|k Hp IH|X c k Hp IH He|line k Hp IH]; simpl.
  - apply Hf.
  - constructor; exact IH.
  - constructor; [exact IH | intros name; rewrite He; reflexivity].
  - constructor; exact IH.
Qed.

Lemma sound_load_reader s r : _reader s = Some r -> sound s load_reader.
Proof. intros H; apply sound_self; simpl; rewrite H; constructor. Qed.

Lemma sound_load_writer s w : _writer s = Some w -> sound s load_writer.
Proof. intros H; apply sound_self; simpl; rewrite H; constructor. Qed.

Lemma sound_await s {X} (c : tcall X) : sound s (await c).
Proof. apply sound_call; [intros v; constructor | reflexivity]. Qed.

Lemma sound_for_range s (n : nat) (body : prog unit) :
  sound s body -> sound s (for_range n body).
Proof.
  intros Hb; induction n as [|n IH]; simpl; [constructor|].
  apply sound_bind; [exact Hb | intros _; exact IH].
Qed.

Lemma sound_body (o : op) s r w :
  _reader s = Some r -> _writer s = Some w ->
  sound s (body_of (undecorated o)).
Proof.
  intros Hr Hw.
  destruct o; cbn [undecorated]; unfold body_of; cbv beta delta [f_read f_readline f_readlines f_readexactly f_readuntil f_write f_writelines f_write_readline f_write_readlines f_writelines_readlines] iota zeta;
    repeat first
      [ apply (sound_load_reader _ Hr) | apply (sound_load_writer _ Hw)
      | apply sound_await | apply sound_for_range | apply sound_bind
      | apply sound_yield | apply sound_ret | intro ].
Qed.

Lemma returns_only_bind {A B} (v : B) (p : prog A) (f : A -> prog B) :
  (forall a, returns_only v (f a)) -> returns_only v (bind p f).
Proof.
  intros Hf; induction p as [a|e|X e k IH|line k IH]; simpl; auto.
Qed.

Lemma streaming_returns_none (o : op) :
  streaming o = true ->
  returns_only VNone (@body_of reader writer (undecorated o)).
Proof.
  destruct o; try discriminate; intros _; cbn [undecorated]; unfold body_of;
    cbv beta delta [f_readlines f_write_readlines f_writelines_readlines] iota zeta;
    repeat (apply returns_only_bind; intro); reflexivity.
Qed.

Lemma run_returns_only {R} (v : R) (p : prog R) st r lines st' :
  returns_only v p -> run T p st = (Returned r, lines, st') -> r = v.
Proof.
  revert st lines st'; induction p as [a|e|X e k IH|line k IH];
    intros st lines st' Hp Hrun; simpl in *.
  - congruence.
  - discriminate.
  - destruct (handle T e st) as [[x st1]|]; [|discriminate].
    eapply IH; [apply Hp | exact Hrun].
  - destruct (run T k st) as [[o l] st1] eqn:E.
    injection Hrun as -> _ _. eapply IH; [exact Hp | exact E].
Qed.

(** A body leaves the object as it is, never waits on the lock, and does
    the same whatever the lock flag is. *)
Lemma run_plain {R} (p : prog R) :
  plain p ->
  forall st, exists o lines st',
    run T p st = (o, lines, st') /\
    sock st' = sock st /\
    o <> Blocked /\
    forall b, run T p (with_sock (set_lock b) st)
              = (o, lines, with_sock (set_lock b) st').
Proof.
  induction 1 as [a|e|k Hk Hp IH|X c k Hc Hp IH|line k Hp IH]; intros st; simpl.
  - eexists _, _, _; repeat split; discriminate.
  - eexists _, _, _; repeat split; discriminate.
  - destruct (IH (sock st) st) as (o & lines & st' & Hrun & Hs & Hb & Hl).
    exists o, lines, st'; repeat split; auto.
    intros b; rewrite Hk; apply Hl.
  - destruct (perform T c (net st)) as [x n'] eqn:P.
    destruct (IH x {| sock := sock st; net := n' |}) as (o & lines & st' & Hrun & Hs & Hb & Hl).
    exists o, lines, st'; repeat split; auto.
  - destruct (IH st) as (o & lines & st' & Hrun & Hs & Hb & Hl).
    exists o, (line :: lines), st'; rewrite Hrun; repeat split; auto.
    intros b; rewrite Hl; reflexivity.
Qed.

(** On an object holding both handles a body raises only what the
    transport raised, and returns when the transport is dependable. *)
Lemma run_sound {R} s (p : prog R) :
  sound s p ->
  forall st, sock st = s ->
  exists o lines st',
    run T p st = (o, lines, st') /\
    ((exists v, o = Returned v) \/ (exists name, o = Raised (TransportError name))) /\
    forall good, dependable T good -> good (net st) ->
      (exists v, o = Returned v) /\ good (net st').
Proof.
  induction 1 as [a|k Hp IH|X c k Hp IH He|line k Hp IH]; intros st Hs; simpl.
  - eexists _, _, _; split; [reflexivity|]; split; eauto.
  - subst s. exact (IH st eq_refl).
  - destruct (perform T c (net st)) as [[v|name] n'] eqn:P.
    + destruct (IH v {| sock := sock st; net := n' |} Hs)
        as (o & lines & st' & Hrun & Ho & Hg).
      exists o, lines, st'; split; [exact Hrun|]; split; [exact Ho|].
      intros good Hd Hgood. destruct (Hd _ c _ Hgood) as (v' & w' & Hv & Hw).
      rewrite P in Hv; injection Hv as <- <-. exact (Hg good Hd Hw).
    + rewrite He; simpl.
      eexists _, _, _; split; [reflexivity|]; split; [eauto|].
      intros good Hd Hgood; destruct (Hd _ c _ Hgood) as (v' & w' & Hv & Hw).
      rewrite P in Hv; discriminate.
  - destruct (IH st Hs) as (o & lines & st' & Hrun & Ho & Hg).
    exists o, (line :: lines), st'; rewrite Hrun.
    split; [reflexivity|]; split; [exact Ho | exact Hg].
Qed.

(** *** The decorated methods *)

Lemma unlock_id st b :
  _lock (sock st) = false ->
  with_sock (set_lock false) (with_sock (set_lock b) st) = st.
Proof. destruct st as [[] ?]; simpl; intros ->; reflexivity. Qed.

Lemma run_acquire st :
  _lock (sock st) = false ->
  run T (trigger Acquire) st = (Returned tt, [], with_sock (set_lock true) st).
Proof. intros H; simpl; rewrite H; reflexivity. Qed.

Lemma run_ensure_coroutine (f : prog value) st :
  plain f ->
  _lock (sock st) = false ->
  run T (ensure_connection (CoroutineFunction f)) st =
  match run T reconnect_if_needed st with
  | (Returned _, _, st1) => run T f st1
  | (Raised e, _, st1) => (Raised e, [], st1)
  | (Blocked, _, st1) => (Blocked, [], st1)
  end.
Proof.
  intros Hf Hlock. unfold ensure_connection, async_with_lock.
  rewrite run_bind, (run_acquire _ Hlock). cbv beta iota.
  rewrite run_finally_release, run_bind.
  destruct (run_reconnect_shape st) as (o & st1 & Hrun & Hnb & Hlk & Hb).
  rewrite (Hb true), Hrun. rewrite Hlock in Hlk.
  destruct o as [[]|e|]; [| |congruence].
  - destruct (run_plain Hf st1) as (o' & lines & st2 & Hr & Hs & Hnb' & Hl).
    rewrite (Hl true), Hr. rewrite <- Hs in Hlk.
    destruct o'; [| |congruence]; simpl; rewrite (unlock_id _ _ Hlk); reflexivity.
  - simpl; rewrite (unlock_id _ _ Hlk); reflexivity.
Qed.

Lemma run_ensure_asyncgen (f : prog value) st :
  returns_only VNone f ->
  _lock (sock st) = false ->
  run T (ensure_connection (AsyncGenFunction f)) st =
  match run T reconnect_if_needed st with
  | (Returned _, _, st1) => run T f st1
  | (Raised e, _, st1) => (Raised e, [], st1)
  | (Blocked, _, st1) => (Blocked, [], st1)
  end.
Proof.
  intros Hf Hlock. unfold ensure_connection, async_with_lock.
  rewrite 2!run_bind, (run_acquire _ Hlock). cbv beta iota.
  rewrite run_finally_release, run_bind.
  destruct (run_reconnect_shape st) as (o & st1 & Hrun & Hnb & Hlk & Hb).
  rewrite (Hb true), Hrun. rewrite Hlock in Hlk.
  destruct o as [[]|e|]; [| |congruence].
  - cbn [run app]. rewrite (unlock_id _ _ Hlk).
    rewrite run_bind, run_async_for_yield.
    destruct (run T f st1) as [[[v|e|] l] st2] eqn:E; cbn [run app].
    + rewrite (run_returns_only _ _ _ Hf E), app_nil_r; reflexivity.
    + reflexivity.
    + reflexivity.
  - cbn [run app]. rewrite (unlock_id _ _ Hlk); reflexivity.
Qed.

(** A call by a single caller on an unlocked object: the reconnect, then
    the body. *)
Lemma run_call (o : op) st :
  _lock (sock st) = false ->
  run T (call o) st =
  match run T reconnect_if_needed st with
  | (Returned _, _, st1) => run T (body_of (undecorated o)) st1
  | (Raised e, _, st1) => (Raised e, [], st1)
  | (Blocked, _, st1) => (Blocked, [], st1)
  end.
Proof.
  intros Hlock.
  destruct (streaming o) eqn:S.
  - pose proof (streaming_returns_none o S) as Hn.
    destruct o; try discriminate S;
      exact (run_ensure_asyncgen _ _ Hn Hlock).
  - pose proof (plain_body o) as Hp.
    destruct o; try discriminate S;
      exact (run_ensure_coroutine _ Hp Hlock).
Qed.

Lemma run_load_reader st r :
  _reader (sock st) = Some r -> run T load_reader st = (Returned r, [], st).
Proof. intros H; simpl; rewrite H; reflexivity. Qed.

Lemma run_load_writer st w :
  _writer (sock st) = Some w -> run T load_writer st = (Returned w, [], st).
Proof. intros H; simpl; rewrite H; reflexivity. Qed.

Lemma run_await {X} (c : tcall X) st v w' :
  perform T c (net st) = (Ok v, w') ->
  run T (await c) st = (Returned v, [], {| sock := sock st; net := w' |}).
Proof. intros H; simpl; rewrite H; reflexivity. Qed.

Lemma run_no_reconnect st :
  auto_reconnect (sock st) = false \/ connected_now T st = true ->
  run T reconnect_if_needed st = (Returned tt, [], st).
Proof.
  intros H; rewrite run_reconnect_if_needed.
  destruct H as [-> | ->]; [reflexivity | rewrite andb_false_r; reflexivity].
Qed.

Lemma run_read_loop (k : nat) r st lines w' :
  _reader (sock st) = Some r ->
  spec_read_lines T r k (net st) = (Ok lines, w') ->
  run T (for_range k (r <- load_reader ;;
                      line <- await (Readline r) ;;
                      Yield line (Ret tt))) st
  = (Returned tt, lines, {| sock := sock st; net := w' |}).
Proof.
  revert st lines w'; induction k as [|k IH]; intros st lines w' Hr Hspec.
  - simpl in *. injection Hspec as <- <-. destruct st; reflexivity.
  - cbn [spec_read_lines] in Hspec.
    destruct (perform T (Readline r) (net st)) as [[line|name] w1] eqn:P;
      [|discriminate].
    destruct (spec_read_lines T r k w1) as [[rest|name] w2] eqn:Q; [|discriminate].
    injection Hspec as <- <-.
    cbn [for_range]. rewrite 2!run_bind, (run_load_reader _ Hr). cbv beta iota.
    rewrite run_bind, (run_await _ _ P). cbv beta iota.
    cbn [run app].
    rewrite (IH {| sock := sock st; net := w1 |} rest w2 Hr Q). reflexivity.
Qed.

Lemma spec_read_lines_length r (k : nat) w lines w' :
  spec_read_lines T r k w = (Ok lines, w') -> length lines = k.
Proof.
  revert w lines w'; induction k as [|k IH]; intros w lines w' H; simpl in H.
  - injection H as <- _; reflexivity.
  - destruct (perform T (Readline r) w) as [[line|name] w1]; [|discriminate].
    destruct (spec_read_lines T r k w1) as [[rest|name] w2] eqn:Q; [|discriminate].
    injection H as <- _. simpl; f_equal; eapply IH; exact Q.
Qed.

(** *** The lifecycle *)

(** C6: a successful [open] stores the new handles and adds exactly one to
    [connection_counter]; [open] on a connected object raises the
    already-open [ConnectionError] and leaves the whole object, counter and
    handles included, as it was. *)
Theorem open_counts_connections st :
  (forall r w net',
      connected_now T st = false ->
      perform T (OpenConnection (host (sock st)) (port (sock st))) (net st)
        = (Ok (r, w), net') ->
      exists st',
        run T open st = (Returned tt, [], st') /\
        connection_counter (sock st') = connection_counter (sock st) + 1 /\
        _reader (sock st') = Some r /\
        _writer (sock st') = Some w /\
        net st' = net')
  /\ (connected_now T st = true ->
      run T open st = (Raised (ConnectionError already_open), [], st)).
Proof.
  split.
  - intros r w net' Hc Hp. rewrite run_open, Hc, Hp.
    eexists; split; [reflexivity|]. repeat split.
  - intros Hc. rewrite run_open, Hc. reflexivity.
Qed.

(** C7: [connected] is [False] when there is no reader handle, in
    particular right after construction and after a [close] that returned;
    with a handle it is the negation of what the transport reports for
    end-of-stream at that moment: the same object answers differently
    when the transport's report differs, and the query changes nothing. *)
Theorem connected_tracks_end_of_stream st :
  run T connected st = (Returned (connected_now T st), [], st)
  /\ (_reader (sock st) = None -> connected_now T st = false)
  /\ (forall r, _reader (sock st) = Some r ->
        connected_now T st = negb (at_eof T r (net st)))
  /\ (forall host port auto w,
        connected_now T {| sock := __init__ host port auto; net := w |} = false)
  /\ (forall st', run T close st = (Returned tt, [], st') ->
        connected_now T st' = false)
  /\ (forall r w1 w2,
        _reader (sock st) = Some r ->
        at_eof T r w1 = false -> at_eof T r w2 = true ->
        connected_now T {| sock := sock st; net := w1 |} = true /\
        connected_now T {| sock := sock st; net := w2 |} = false).
Proof.
  split; [apply run_connected|].
  split; [intros H; rewrite connected_now_eq, H; reflexivity|].
  split; [intros r H; rewrite connected_now_eq, H; reflexivity|].
  split; [intros; rewrite connected_now_eq; reflexivity|].
  split.
  - intros st' H. rewrite run_close in H. rewrite connected_now_eq.
    destruct (_writer (sock st)) as [w|].
    + destruct (perform T (Close w) (net st)) as [[[]|name] n1]; [|discriminate].
      destruct (perform T (WaitClosed w) n1) as [[[]|name] n2]; [|discriminate].
      injection H as <-; reflexivity.
    + injection H as <-; reflexivity.
  - intros r w1 w2 Hr H1 H2. rewrite !connected_now_eq; simpl.
    rewrite Hr, H1, H2. split; reflexivity.
Qed.

(** C5 (as amended): [close] returns and clears both handles when there
    is no writer, or when the writer's [close] and [wait_closed] both
    succeed; when either of them raises, [close] raises the same error to
    its caller without reaching the stores, so both handles stay. *)
Theorem close_clears_unless_shutdown_raises st :
  (_writer (sock st) = None ->
     run T close st = (Returned tt, [], with_sock forget st))
  /\ (forall w n1 n2,
        _writer (sock st) = Some w ->
        perform T (Close w) (net st) = (Ok tt, n1) ->
        perform T (WaitClosed w) n1 = (Ok tt, n2) ->
        run T close st = (Returned tt, [], {| sock := forget (sock st); net := n2 |}))
  /\ (forall w n1 name n2,
        _writer (sock st) = Some w ->
        perform T (Close w) (net st) = (Ok tt, n1) ->
        perform T (WaitClosed w) n1 = (Err name, n2) ->
        run T close st
        = (Raised (TransportError name), [], {| sock := sock st; net := n2 |}))
  /\ (forall w name n1,
        _writer (sock st) = Some w ->
        perform T (Close w) (net st) = (Err name, n1) ->
        run T close st
        = (Raised (TransportError name), [], {| sock := sock st; net := n1 |})).
Proof.
  repeat split.
  - intros Hw. rewrite run_close, Hw. reflexivity.
  - intros w n1 n2 Hw H1 H2. rewrite run_close, Hw, H1, H2. reflexivity.
  - intros w n1 name n2 Hw H1 H2. rewrite run_close, Hw, H1, H2. reflexivity.
  - intros w name n1 Hw H1. rewrite run_close, Hw, H1. reflexivity.
Qed.

(** C8 (as amended): [close] on an object that holds no handle changes
    nothing and raises nothing; and whenever a first [close] returns, the
    object is disconnected, a second [close] returns as well, changes
    nothing, and the object is still disconnected. *)
Theorem close_twice st :
  (_reader (sock st) = None -> _writer (sock st) = None ->
     run T close st = (Returned tt, [], st))
  /\ (forall st1,
        run T close st = (Returned tt, [], st1) ->
        connected_now T st1 = false /\
        run T close st1 = (Returned tt, [], st1)).
Proof.
  assert (Hnone : forall st0, _reader (sock st0) = None -> _writer (sock st0) = None ->
                   run T close st0 = (Returned tt, [], st0)).
  { intros st0 Hr Hw. rewrite run_close, Hw.
    destruct st0 as [[] ?]; simpl in *; subst; reflexivity. }
  split; [apply Hnone|].
  intros st1 H.
  assert (Hh : _reader (sock st1) = None /\ _writer (sock st1) = None).
  { rewrite run_close in H. destruct (_writer (sock st)) as [w|].
    - destruct (perform T (Close w) (net st)) as [[[]|name] n1]; [|discriminate].
      destruct (perform T (WaitClosed w) n1) as [[[]|name] n2]; [|discriminate].
      injection H as <-; split; reflexivity.
    - injection H as <-; split; reflexivity. }
  destruct Hh as [Hr Hw]. split.
  - rewrite connected_now_eq, Hr; reflexivity.
  - apply Hnone; assumption.
Qed.

(** C10: with a reader handle whose transport has reported end-of-stream,
    [open] does not raise the already-open error: it stores the handles of
    the new connection over the old ones and adds one to the counter, and
    the only thing it asks of the transport is [open_connection] (the old
    writer is neither closed nor waited for).  With [auto_reconnect] the
    next public call does exactly that before running its body. *)
Theorem open_replaces_stale_handles st r0 r w net' :
  _reader (sock st) = Some r0 ->
  at_eof T r0 (net st) = true ->
  perform T (OpenConnection (host (sock st)) (port (sock st))) (net st)
    = (Ok (r, w), net') ->
  let st' := {| sock := connect_to r w (sock st); net := net' |} in
  run T open st = (Returned tt, [], st')
  /\ connection_counter (sock st') = connection_counter (sock st) + 1
  /\ _reader (sock st') = Some r
  /\ _writer (sock st') = Some w
  /\ (auto_reconnect (sock st) = true -> _lock (sock st) = false ->
      forall o : op,
        run T (call o) st = run T (body_of (undecorated o)) st' /\
        exists out lines st2,
          run T (call o) st = (out, lines, st2) /\
          sock st2 = sock st' /\
          forall msg, out <> Raised (ConnectionError msg)).
Proof.
  intros Hr Heof Hp st'.
  assert (Hc : connected_now T st = false)
    by (rewrite connected_now_eq, Hr, Heof; reflexivity).
  assert (Ho : run T open st = (Returned tt, [], st'))
    by (rewrite run_open, Hc, Hp; reflexivity).
  split; [exact Ho|]. do 3 (split; [reflexivity|]).
  intros Hauto Hlock o.
  assert (Hcall : run T (call o) st = run T (body_of (undecorated o)) st')
    by (rewrite (run_call _ _ Hlock), run_reconnect_if_needed, Hauto, Hc, Ho;
        reflexivity).
  split; [exact Hcall|]. rewrite Hcall.
  - destruct (run_plain (plain_body o) st') as (out & lines & st2 & Hrun & Hs & _ & _).
    destruct (run_sound (sound_body o (sock st') (r := r) (w := w) eq_refl eq_refl)
                st' eq_refl) as (out' & lines' & st2' & Hrun' & Hout & _).
    rewrite Hrun in Hrun'; injection Hrun' as <- <- <-.
    exists out, lines, st2. split; [exact Hrun|]. split; [exact Hs|].
    intros msg Hm. destruct Hout as [[v ->]|[name ->]]; discriminate.
Qed.

(** *** The public calls *)

(** C4 (as amended): without [auto_reconnect], on an object that holds no
    handle, every public call raises the [AttributeError] of an absent
    connection and leaves the object and the world as they were (no
    [open], counter unchanged), with one exception: [readlines(n)] with
    [n <= 0] touches nothing and ends normally with an empty sequence. *)
Theorem no_handle_no_reconnect (o : op) st :
  auto_reconnect (sock st) = false ->
  _reader (sock st) = None ->
  _writer (sock st) = None ->
  _lock (sock st) = false ->
  ((forall n, o = op_readlines n -> 0 < n) ->
     run T (call o) st = (Raised AttributeError, [], st))
  /\ (forall n, o = op_readlines n -> n <= 0 ->
        run T (call o) st = (Returned VNone, [], st)).
Proof.
  intros Hauto Hr Hw Hlock.
  rewrite (run_call o st Hlock), (run_no_reconnect st (or_introl Hauto)).
  split.
  - intros Hn.
    destruct o; cbn [undecorated body_of f_read f_readline f_readlines f_readexactly
                       f_readuntil f_write f_writelines f_write_readline
                       f_write_readlines f_writelines_readlines];
      try (simpl; rewrite ?Hr, ?Hw; reflexivity).
    specialize (Hn n eq_refl).
    destruct (Z.to_nat n) as [|k] eqn:E; [lia|].
    simpl; rewrite Hr; reflexivity.
  - intros n -> Hn. cbn [undecorated body_of f_readlines].
    replace (Z.to_nat n) with O by lia. reflexivity.
Qed.

(** C9: [writelines_readlines(lines)] is [writelines_readlines(lines,
    len(lines))]; on a connected object whose transport takes the lines
    and the flush and then delivers [count] lines, the call hands the
    lines to the writer, drains it, then yields exactly the [count] lines
    read after that, in order, and ends. *)
Theorem writelines_readlines_yields_count
    (lines : list bytes) (n : option Z) st r w w1 w2 w3 items :
  let count := match n with
               | None => Z.of_nat (length lines)
               | Some n => n
               end in
  _lock (sock st) = false ->
  _reader (sock st) = Some r ->
  _writer (sock st) = Some w ->
  connected_now T st = true ->
  perform T (Writelines w lines) (net st) = (Ok tt, w1) ->
  perform T (Drain w) w1 = (Ok tt, w2) ->
  spec_read_lines T r (Z.to_nat count) w2 = (Ok items, w3) ->
  @writelines_readlines reader writer lines None
    = writelines_readlines lines (Some (Z.of_nat (length lines)))
  /\ run T (writelines_readlines lines n) st
     = (Returned VNone, items, {| sock := sock st; net := w3 |})
  /\ length items = Z.to_nat count
  /\ (0 <= count -> Z.of_nat (length items) = count).
Proof.
  intros count Hlock Hr Hw Hc H1 H2 H3.
  split; [reflexivity|].
  pose proof (spec_read_lines_length _ _ _ H3) as Hlen.
  split; [|split; [exact Hlen | intros; lia]].
  change (writelines_readlines lines n)
    with (@call reader writer (op_writelines_readlines lines n)).
  rewrite (run_call _ st Hlock), (run_no_reconnect st (or_intror Hc)).
  cbn [undecorated body_of f_writelines_readlines]. unfold invoke.
  fold count.
  rewrite run_bind, (run_load_writer _ Hw). cbv beta iota.
  rewrite run_bind, (run_await _ _ H1). cbv beta iota.
  rewrite run_bind, (run_load_writer {| sock := sock st; net := w1 |} Hw).
  cbv beta iota.
  rewrite run_bind, (run_await (Drain w) {| sock := sock st; net := w1 |} H2).
  cbv beta iota. cbn [sock net].
  rewrite run_bind,
    (run_read_loop (Z.to_nat count) {| sock := sock st; net := w2 |} Hr H3).
  simpl. rewrite app_nil_r. reflexivity.
Qed.

End Sequential.

Section Concurrent.

Context {reader writer world : Type} (T : @Transport reader writer world).
Implicit Types (st : @state reader writer world) (s : @Socket reader writer).
Implicit Types (t : @task reader writer) (l : list (@task reader writer)).
Implicit Types (c : @system reader writer world).
Local Abbreviation prog := (@prog reader writer).
Local Abbreviation tcall := (@tcall reader writer).
Local Abbreviation event := (@event reader writer).
Local Abbreviation streaming := (@streaming reader writer).

(** *** The programs keep to the lock discipline *)

Lemma inside_bind {A B} (p : prog A) (f : A -> prog B) :
  inside p -> (forall a, inside (f a)) -> inside (bind p f).
Proof.
  intros Hp Hf; induction p as [a|e|X e k IH|line k IH]; simpl in *.
  - apply Hf.
  - exact I.
  - destruct Hp as [He Hk]; split; [exact He | intros x; apply IH, Hk].
  - apply IH, Hp.
Qed.

Lemma plain_inside {R} (p : prog R) : plain p -> inside p.
Proof.
  induction 1 as [a|e|k Hk Hp IH|X c k Hc Hp IH|line k Hp IH]; simpl; auto.
Qed.

Lemma inside_connected : inside (@connected reader writer).
Proof.
  unfold connected; simpl; split; [reflexivity|].
  intros s; destruct (_reader s); simpl; auto.
Qed.

Lemma inside_open : inside (@open reader writer).
Proof.
  unfold open; apply inside_bind; [apply inside_connected|].
  intros [|]; simpl; [exact I|].
  split; [reflexivity|]; intros s.
  split; [reflexivity|]; intros [[r w]|name]; simpl; auto 10.
Qed.

Lemma inside_reconnect_if_needed : inside (@reconnect_if_needed reader writer).
Proof.
  unfold reconnect_if_needed; apply inside_bind; [simpl; auto|].
  intros s; destruct (auto_reconnect s); [|exact I].
  apply inside_bind; [apply inside_connected|].
  intros [|]; [exact I | apply inside_open].
Qed.

Lemma allowed_inside (o : op) {X} (e : event X) :
  is_lock_event e = false ->
  allowed o e true = true /\ forall h, holds_after e h = h.
Proof.
  destruct e; try discriminate; intros _; split; try reflexivity;
    simpl; apply implb_true_r.
Qed.

Lemma disciplined_finally_then (o : op) {A B} (v : A) (p : prog A) (f : A -> prog B) :
  inside p ->
  returns_only v p ->
  disciplined o false (f v) ->
  disciplined o true (bind (finally p (trigger Release)) f).
Proof.
  intros Hp Hv Hf; induction p as [a|e|X e k IH|line k IH]; simpl in *.
  - subst a. split; [reflexivity | intros _; exact Hf].
  - split; [reflexivity | intros _; reflexivity].
  - destruct Hp as [He Hk]. destruct (allowed_inside o e He) as [Ha Hh].
    split; [exact Ha|]. intros x; rewrite Hh; apply IH; [apply Hk | apply Hv].
  - apply IH; [exact Hp | exact Hv].
Qed.

Lemma disciplined_stream (o : op) {R} (g : prog R) (f : unit -> prog value) :
  plain g ->
  streaming o = true ->
  (forall a, disciplined o false (f a)) ->
  disciplined o false (bind (async_for g (fun line => Yield line (Ret tt))) f).
Proof.
  intros Hg Hs Hf.
  induction Hg as [a|e|k Hk Hp IH|X c k Hc Hp IH|line k Hp IH]; simpl.
  - apply Hf.
  - reflexivity.
  - split; [reflexivity | exact IH].
  - split; [|exact IH].
    unfold needs_gate. fold (streaming o). rewrite Hs.
    destruct c; try discriminate Hc; reflexivity.
  - exact IH.
Qed.

Lemma disciplined_coroutine (o : op) (f : prog value) :
  plain f ->
  disciplined o false (ensure_connection (CoroutineFunction f)).
Proof.
  intros Hf. unfold ensure_connection, async_with_lock.
  cbn [bind trigger disciplined]. split; [reflexivity|]. intros _.
  assert (Hin : inside (bind reconnect_if_needed (fun _ => f)))
    by (apply inside_bind;
        [apply inside_reconnect_if_needed | intros _; apply plain_inside, Hf]).
  revert Hin. generalize (bind reconnect_if_needed (fun _ => f)).
  intros p; induction p as [a|e|X e k IH|line k IH]; intros Hp; simpl in *.
  - split; [reflexivity | intros _; reflexivity].
  - split; [reflexivity | intros _; reflexivity].
  - destruct Hp as [He Hk]. destruct (allowed_inside o e He) as [Ha Hh].
    split; [exact Ha|]. intros x; rewrite Hh; apply IH, Hk.
  - apply IH, Hp.
Qed.

Lemma disciplined_asyncgen (o : op) (f : prog value) :
  plain f ->
  streaming o = true ->
  disciplined o false (ensure_connection (AsyncGenFunction f)).
Proof.
  intros Hf Hs. unfold ensure_connection, async_with_lock.
  cbn [bind trigger disciplined]. split; [reflexivity|]. intros _.
  cbn [holds_after].
  apply disciplined_finally_then with (v := f).
  - apply inside_bind; [apply inside_reconnect_if_needed | intros _; exact I].
  - apply returns_only_bind; intros _; reflexivity.
  - apply disciplined_stream; [exact Hf | exact Hs | intros _; reflexivity].
Qed.

Lemma disciplined_call (o : op) : disciplined o false (@call reader writer o).
Proof.
  destruct o;
    match goal with
    | |- disciplined ?o _ _ =>
        first [ exact (disciplined_coroutine o (plain_body o))
              | exact (disciplined_asyncgen o (plain_body o) eq_refl) ]
    end.
Qed.

(** *** The invariant *)

Lemma lookup_spawned (ops : list op) i t :
  map (@spawn reader writer) ops !! i = Some t ->
  held t = false /\ code t = call (origin t).
Proof.
  revert i; induction ops as [|o ops IH]; intros [|i] H; simpl in H;
    try discriminate.
  - injection H as <-; split; reflexivity.
  - exact (IH i H).
Qed.

Lemma orderly_start (ops : list op) st :
  orderly (start ops st).
Proof.
  split; [|split].
  - intros _ i t H. exact (proj1 (lookup_spawned _ _ H)).
  - intros i j ti tj Hi _ Hti _.
    rewrite (proj1 (lookup_spawned _ _ Hi)) in Hti; discriminate.
  - intros i t H. destruct (lookup_spawned _ _ H) as [-> ->].
    apply disciplined_call.
Qed.

Lemma unheld_exclusive l : unheld l -> exclusive l.
Proof.
  intros Hu i j ti tj Hi _ Hti _. rewrite (Hu _ _ Hi) in Hti; discriminate.
Qed.

Lemma unheld_insert l i t' :
  unheld l -> held t' = false -> unheld (<[i:=t']> l).
Proof.
  intros Hu Ht j t Hj.
  apply list_lookup_insert_Some in Hj as [(_ & <- & _)|(_ & Hj)];
    [exact Ht | exact (Hu _ _ Hj)].
Qed.

(** Task [i] steps out of the lock: nobody is inside any more. *)
Lemma exclusive_leave l i t t' :
  exclusive l -> l !! i = Some t -> held t = true -> held t' = false ->
  unheld (<[i:=t']> l).
Proof.
  intros He Hi Ht Ht' j tj Hj.
  apply list_lookup_insert_Some in Hj as [(_ & <- & _)|(Hne & Hj)];
    [exact Ht'|].
  destruct (held tj) eqn:E; [|reflexivity].
  exfalso; apply Hne. exact (He _ _ _ _ Hi Hj Ht E).
Qed.

(** Task [i] steps into the lock while nobody is inside. *)
Lemma unheld_enter l i t' :
  unheld l -> exclusive (<[i:=t']> l).
Proof.
  intros Hu j k tj tk Hj Hk Htj Htk.
  apply list_lookup_insert_Some in Hj as [(<- & _ & _)|(_ & Hj)];
    apply list_lookup_insert_Some in Hk as [(<- & _ & _)|(_ & Hk)];
    try reflexivity.
  - rewrite (Hu _ _ Hk) in Htk; discriminate.
  - rewrite (Hu _ _ Hj) in Htj; discriminate.
  - rewrite (Hu _ _ Hj) in Htj; discriminate.
Qed.

(** Task [i] moves on without changing sides. *)
Lemma exclusive_stay l i t t' :
  exclusive l -> l !! i = Some t -> (held t' = true -> held t = true) ->
  exclusive (<[i:=t']> l).
Proof.
  intros He Hi Hsame j k tj tk Hj Hk Htj Htk.
  apply list_lookup_insert_Some in Hj as [(<- & <- & _)|(_ & Hj)];
    apply list_lookup_insert_Some in Hk as [(<- & <- & _)|(_ & Hk)];
    try reflexivity.
  - exact (He _ _ _ _ Hi Hk (Hsame Htj) Htk).
  - exact (He _ _ _ _ Hj Hi Htj (Hsame Htk)).
  - exact (He _ _ _ _ Hj Hk Htj Htk).
Qed.

Lemma unheld_stay l i t t' :
  unheld l -> l !! i = Some t -> held t' = held t -> unheld (<[i:=t']> l).
Proof.
  intros Hu Hi Hsame. apply unheld_insert; [exact Hu|].
  rewrite Hsame; exact (Hu _ _ Hi).
Qed.

Lemma handle_keeps_lock {X} (e : event X) st x st' :
  is_lock_event e = false ->
  handle T e st = Some (x, st') ->
  _lock (sock st') = _lock (sock st).
Proof.
  destruct e; try discriminate; intros _ H; simpl in H;
    try (injection H as _ <-; reflexivity).
  destruct (perform T c (net st)) as [y n']. injection H as _ <-; reflexivity.
Qed.

Lemma disciplined_insert l i t' :
  (forall j t, l !! j = Some t -> disciplined (origin t) (held t) (code t)) ->
  disciplined (origin t') (held t') (code t') ->
  forall j t, <[i:=t']> l !! j = Some t -> disciplined (origin t) (held t) (code t).
Proof.
  intros Hd Ht j t Hj.
  apply list_lookup_insert_Some in Hj as [(_ & <- & _)|(_ & Hj)];
    [exact Ht | exact (Hd _ _ Hj)].
Qed.

Lemma step_orderly (m : move) c c' :
  orderly c -> step T m c = Some c' -> orderly c'.
Proof.
  intros (Hu & He & Hd) H. destruct m as [i|i|w]; simpl in H.
  - (* a task performs its next event *)
    destruct (tasks c !! i) as [t|] eqn:Hi; [|discriminate].
    destruct (step_task T t (shared c)) as [[t' st']|] eqn:Hs; [|discriminate].
    injection H as <-. unfold step_task in Hs.
    pose proof (Hd _ _ Hi) as Hdt.
    destruct (code t) as [r|e|X e k|line k] eqn:Hc; try discriminate.
    + destruct (handle T e (shared c)) as [[x st1]|] eqn:Hh; [|discriminate].
      injection Hs as <- <-. simpl in Hdt. destruct Hdt as [Ha Hk].
      destruct (is_lock_event e) eqn:L.
      * destruct e; try discriminate L; simpl in Hh, Ha.
        -- (* Acquire *)
           destruct (_lock (sock (shared c))) eqn:Lk; [discriminate|].
           injection Hh as <- <-.
           split; [|split]; simpl.
           ++ discriminate.
           ++ apply unheld_enter, Hu; reflexivity.
           ++ apply disciplined_insert; [exact Hd | apply Hk].
        -- (* Release *)
           injection Hh as <- <-.
           assert (Hun : unheld (<[i:={| origin := origin t; code := k tt;
                                        held := false; produced := produced t |}]>
                                 (tasks c)))
             by (eapply exclusive_leave; eauto).
           split; [|split]; simpl.
           ++ intros _; exact Hun.
           ++ apply unheld_exclusive, Hun.
           ++ apply disciplined_insert; [exact Hd | apply Hk].
      * destruct (allowed_inside (origin t) e L) as [_ Hh'].
        pose proof (handle_keeps_lock _ _ L Hh) as Hl.
        split; [|split]; simpl.
        -- rewrite Hl; intros Hf.
           eapply unheld_stay; [exact (Hu Hf) | exact Hi | apply Hh'].
        -- eapply exclusive_stay; [exact He | exact Hi |].
           simpl; rewrite Hh'; auto.
        -- apply disciplined_insert; [exact Hd | apply Hk].
    + injection Hs as <- <-. simpl in Hdt.
      split; [|split]; simpl.
      * intros Hf. eapply unheld_stay; [exact (Hu Hf) | exact Hi | reflexivity].
      * eapply exclusive_stay; [exact He | exact Hi | auto].
      * apply disciplined_insert; [exact Hd | exact Hdt].
  - (* a task is cancelled *)
    destruct (tasks c !! i) as [t|] eqn:Hi; [|discriminate].
    unfold cancel_task in H. destruct (finished t); [discriminate|].
    injection H as <-.
    split; [|split]; simpl.
    + destruct (held t) eqn:Ht.
      * intros _. eapply exclusive_leave; eauto.
      * intros Hf. apply unheld_insert; [exact (Hu Hf) | reflexivity].
    + eapply exclusive_stay; [exact He | exact Hi | discriminate].
    + apply disciplined_insert; [exact Hd | reflexivity].
  - (* the world changes *)
    injection H as <-. split; [|split]; simpl; assumption.
Qed.



End Concurrent.

(** * The methods at work on the scripted transport *)

Lemma fake_dependable : dependable Fake.transport Fake.healthy.
Proof.
  intros X c w (Hr & Hc & He & line & Hl).
  assert (Hn : exists l, Fake.next_line w = Some l).
  { unfold Fake.next_line. destruct (Fake.replies w); eauto. }
  destruct Hn as [l Hn].
  assert (Hpop : forall r, Fake.healthy (Fake.pop r w)).
  { intros r. unfold Fake.healthy, Fake.pop; simpl. rewrite Hn. eauto 10. }
  assert (He' : forall r, Fake.is_ended r w = false)
    by (intros r; unfold Fake.is_ended; rewrite He; reflexivity).
  destruct c; simpl;
    unfold Fake.lenient, Fake.demanding; rewrite ?He', ?Hn, ?Hr, ?Hc;
    eexists _, _; (split; [reflexivity|]);
    try apply Hpop; unfold Fake.healthy; simpl; eauto 10.
Qed.


(** C2: the code at the failing input.  Caller 0 consumes [readlines(2)]
    and has received the first of its two lines; it is not inside the
    lock, and the lock is free.  Caller 1 then enters its own critical
    section and performs its [write] while the sequence of caller 0 is
    half consumed; caller 0 gets its second line only afterwards. *)
Lemma stream_is_produced_outside_the_gate :
  option_map observe (exec Fake.transport one_line_in two_callers)
    = Some (false, [([b "A"], false, false); ([], false, false)])
  /\ option_map observe
       (exec Fake.transport (one_line_in ++ writer_enters) two_callers)
    = Some (true, [([b "A"], false, false); ([], true, false)])
  /\ option_map (fun c => (observe c, Fake.received (net (shared c))))
       (exec Fake.transport (one_line_in ++ writer_enters ++ writer_finishes)
          two_callers)
    = Some ((false, [([b "A"], false, false); ([], false, true)]), [b "PING"])
  /\ option_map (fun c => (observe c, Fake.received (net (shared c))))
       (exec Fake.transport
          (one_line_in ++ writer_enters ++ writer_finishes ++ reader_resumes)
          two_callers)
    = Some ((false, [([b "A"; b "B"], false, true); ([], false, true)]), [b "PING"]).
Proof. repeat split; vm_compute; reflexivity. Qed.

Lemma no_handle_no_reconnect_witness :
  run Fake.transport (call (op_write (b "PING"))) (fresh false (Fake.serving []))
    = (Raised AttributeError, [], fresh false (Fake.serving []))
  /\ run Fake.transport (call (op_readlines 2)) (fresh false (Fake.serving []))
    = (Raised AttributeError, [], fresh false (Fake.serving []))
  /\ run Fake.transport (call (op_readlines (-1))) (fresh false (Fake.serving []))
    = (Returned VNone, [], fresh false (Fake.serving [])).
Proof.
  split; [|split].
  - apply (no_handle_no_reconnect Fake.transport (op_write (b "PING"))
             (fresh false (Fake.serving [])) eq_refl eq_refl eq_refl eq_refl).
    intros n H; discriminate H.
  - apply (no_handle_no_reconnect Fake.transport (op_readlines 2)
             (fresh false (Fake.serving [])) eq_refl eq_refl eq_refl eq_refl).
    intros n H; injection H as <-; lia.
  - apply (proj2 (no_handle_no_reconnect Fake.transport (op_readlines (-1))
             (fresh false (Fake.serving [])) eq_refl eq_refl eq_refl eq_refl)
             (-1) eq_refl).
    lia.
Defined.

(** C4, the claim as stated fails: without [auto_reconnect], on a fresh
    object, [readlines(0)] does not raise; it ends normally, having
    yielded nothing. *)
Lemma readlines_zero_does_not_raise :
  auto_reconnect (sock (fresh false (Fake.serving []))) = false
  /\ connected_now Fake.transport (fresh false (Fake.serving [])) = false
  /\ run Fake.transport (call (op_readlines 0)) (fresh false (Fake.serving []))
     = (Returned VNone, [], fresh false (Fake.serving []))
  /\ run Fake.transport (call (op_readlines 0)) (fresh false (Fake.serving []))
     <> (Raised AttributeError, [], fresh false (Fake.serving [])).
Proof. repeat split; try reflexivity. vm_compute; discriminate. Qed.

Lemma close_clears_unless_shutdown_raises_witness :
  run Fake.transport close (fresh false (Fake.serving []))
    = (Returned tt, [], with_sock forget (fresh false (Fake.serving [])))
  /\ run Fake.transport close talking
    = (Returned tt, [], {| sock := forget (sock talking);
                           net := Fake.shut 0 (net talking) |})
  /\ run Fake.transport close doomed
    = (Raised (TransportError "ConnectionResetError"), [],
       {| sock := sock doomed; net := Fake.shut 0 (net doomed) |}).
Proof.
  split; [|split].
  - exact (proj1 (close_clears_unless_shutdown_raises Fake.transport
                    (fresh false (Fake.serving []))) eq_refl).
  - exact (proj1 (proj2 (close_clears_unless_shutdown_raises Fake.transport talking))
             0%nat (Fake.shut 0 (net talking)) (Fake.shut 0 (net talking))
             eq_refl eq_refl eq_refl).
  - exact (proj1 (proj2 (proj2 (close_clears_unless_shutdown_raises
                                  Fake.transport doomed)))
             0%nat (Fake.shut 0 (net doomed)) "ConnectionResetError"
             (Fake.shut 0 (net doomed)) eq_refl eq_refl eq_refl).
Defined.

(** C5, the claim as stated fails: on a connected object whose transport
    reports a reset when closing, [close] raises that error to its caller
    and both handles are still in place afterwards. *)
Lemma close_raises_and_keeps_handles :
  run Fake.transport close doomed
    = (Raised (TransportError "ConnectionResetError"), [],
       {| sock := sock doomed; net := Fake.shut 0 (net doomed) |})
  /\ _reader (sock doomed) = Some 0%nat
  /\ _writer (sock doomed) = Some 0%nat
  /\ connected_now Fake.transport (after Fake.transport close doomed) = true.
Proof. repeat split. Qed.

Lemma close_twice_witness :
  run Fake.transport close (fresh false (Fake.serving []))
    = (Returned tt, [], fresh false (Fake.serving []))
  /\ run Fake.transport close talking
     = (Returned tt, [], after Fake.transport close talking)
  /\ connected_now Fake.transport (after Fake.transport close talking) = false
  /\ run Fake.transport close (after Fake.transport close talking)
     = (Returned tt, [], after Fake.transport close talking).
Proof.
  split; [|split; [reflexivity|]].
  - exact (proj1 (close_twice Fake.transport (fresh false (Fake.serving [])))
             eq_refl eq_refl).
  - exact (proj2 (close_twice Fake.transport talking)
             (after Fake.transport close talking) eq_refl).
Defined.

(** C8, the claim as stated fails: on a connected object whose transport
    reports a reset when closing, two calls of [close] in a row both
    raise, and the object is still connected after each. *)
Lemma close_twice_raises_twice :
  fst (fst (run Fake.transport close doomed))
    = Raised (TransportError "ConnectionResetError")
  /\ connected_now Fake.transport (after Fake.transport close doomed) = true
  /\ fst (fst (run Fake.transport close (after Fake.transport close doomed)))
     = Raised (TransportError "ConnectionResetError")
  /\ connected_now Fake.transport
       (after Fake.transport close (after Fake.transport close doomed)) = true.
Proof. repeat split. Qed.

Lemma open_counts_connections_witness :
  connected_now Fake.transport (fresh false (Fake.serving [])) = false
  /\ (exists st',
        run Fake.transport open (fresh false (Fake.serving []))
          = (Returned tt, [], st') /\
        connection_counter (sock st') = 0 + 1 /\
        _reader (sock st') = Some 0%nat /\
        _writer (sock st') = Some 0%nat /\
        net st' = Fake.accept (Fake.serving []))
  /\ connected_now Fake.transport talking = true
  /\ run Fake.transport open talking
     = (Raised (ConnectionError already_open), [], talking).
Proof.
  split; [reflexivity|]. split; [|split; [reflexivity|]].
  - exact (proj1 (open_counts_connections Fake.transport
                    (fresh false (Fake.serving [])))
             0%nat 0%nat (Fake.accept (Fake.serving [])) eq_refl eq_refl).
  - exact (proj2 (open_counts_connections Fake.transport talking) eq_refl).
Defined.

Lemma connected_tracks_end_of_stream_witness :
  connected_now Fake.transport (fresh true (Fake.serving [])) = false
  /\ connected_now Fake.transport talking = negb (Fake.is_ended 0 (net talking))
  /\ connected_now Fake.transport (after Fake.transport close talking) = false
  /\ connected_now Fake.transport
       {| sock := sock talking; net := net talking |} = true
  /\ connected_now Fake.transport
       {| sock := sock talking; net := Fake.end_stream 0 (net talking) |} = false.
Proof.
  pose proof (connected_tracks_end_of_stream Fake.transport talking)
    as (_ & _ & Hsome & _ & Hclose & Hlive).
  pose proof (connected_tracks_end_of_stream Fake.transport
                (fresh true (Fake.serving []))) as (_ & Hnone & _).
  split; [exact (Hnone eq_refl)|].
  split; [exact (Hsome 0%nat eq_refl)|].
  split; [exact (Hclose (after Fake.transport close talking) eq_refl)|].
  exact (Hlive 0%nat (net talking) (Fake.end_stream 0 (net talking))
           eq_refl eq_refl eq_refl).
Defined.

Lemma writelines_readlines_yields_count_witness :
  connected_now Fake.transport talking = true
  /\ run Fake.transport (writelines_readlines [b "a"; b "b"] None) talking
     = (Returned VNone, [b "X"; b "Y"],
        {| sock := sock talking;
           net := Fake.pop 0 (Fake.pop 0 (Fake.push [b "a"; b "b"] (net talking))) |})
  /\ length [b "X"; b "Y"] = Z.to_nat (Z.of_nat (length [b "a"; b "b"])).
Proof.
  split; [reflexivity|].
  pose proof (writelines_readlines_yields_count Fake.transport
                [b "a"; b "b"] None talking
                (r := 0%nat) (w := 0%nat)
                (w1 := Fake.push [b "a"; b "b"] (net talking))
                (w2 := Fake.push [b "a"; b "b"] (net talking))
                (w3 := Fake.pop 0 (Fake.pop 0 (Fake.push [b "a"; b "b"] (net talking))))
                (items := [b "X"; b "Y"])
                eq_refl eq_refl eq_refl eq_refl eq_refl eq_refl eq_refl)
    as (_ & Hrun & Hlen & _).
  split; [exact Hrun | exact Hlen].
Defined.

Lemma open_replaces_stale_handles_witness :
  _reader (sock stale) = Some 0%nat
  /\ at_eof Fake.transport 0%nat (net stale) = true
  /\ run Fake.transport open stale
     = (Returned tt, [],
        {| sock := connect_to 1%nat 1%nat (sock stale);
           net := Fake.accept (net stale) |})
  /\ connection_counter (connect_to 1%nat 1%nat (sock stale))
     = connection_counter (sock stale) + 1
  /\ Fake.closed (Fake.accept (net stale)) = []
  /\ run Fake.transport (call op_readline) stale
     = run Fake.transport (body_of (undecorated op_readline))
         {| sock := connect_to 1%nat 1%nat (sock stale);
            net := Fake.accept (net stale) |}.
Proof.
  pose proof (open_replaces_stale_handles Fake.transport stale
                (r0 := 0%nat) (r := 1%nat) (w := 1%nat)
                (net' := Fake.accept (net stale)) eq_refl eq_refl eq_refl)
    as (Hopen & Hcount & _ & _ & Hauto).
  split; [reflexivity|]. split; [reflexivity|].
  split; [exact Hopen|]. split; [exact Hcount|]. split; [reflexivity|].
  exact (proj1 (Hauto eq_refl eq_refl op_readline)).
Defined.

(** * More on the calls of a single caller *)

Section Calls.

Context {reader writer world : Type} (T : @Transport reader writer world).
Implicit Types (st : @state reader writer world) (s : @Socket reader writer).
Local Abbreviation prog := (@prog reader writer).
Local Abbreviation tcall := (@tcall reader writer).

Lemma call_effect (o : op) st :
  _lock (sock st) = false ->
  exists out lines st',
    run T (call o) st = (out, lines, st') /\
    out <> Blocked /\
    _lock (sock st') = false /\
    (sock st' = sock st \/
     auto_reconnect (sock st) = true /\
     connected_now T st = false /\
     exists r w w',
       perform T (OpenConnection (host (sock st)) (port (sock st))) (net st)
         = (Ok (r, w), w') /\
       sock st' = connect_to r w (sock st)).
Proof.
  intros Hlock. rewrite (run_call T o st Hlock), run_reconnect_if_needed, run_open.
  destruct (auto_reconnect (sock st)) eqn:A, (connected_now T st) eqn:C;
    cbn [andb negb].
  - destruct (run_plain T (plain_body o) st) as (out & lines & st' & Hrun & Hs & Hb & _).
    exists out, lines, st'. rewrite Hs. auto.
  - destruct (perform T (OpenConnection (host (sock st)) (port (sock st))) (net st))
      as [[[r w]|name] w'] eqn:P.
    + destruct (run_plain T (plain_body o)
                  {| sock := connect_to r w (sock st); net := w' |})
        as (out & lines & st' & Hrun & Hs & Hb & _).
      exists out, lines, st'. rewrite Hs. simpl.
      repeat (split; [assumption|]). right. eauto 10.
    + eexists _, _, _. split; [reflexivity|]. split; [discriminate|]. auto.
  - destruct (run_plain T (plain_body o) st) as (out & lines & st' & Hrun & Hs & Hb & _).
    exists out, lines, st'. rewrite Hs. auto.
  - destruct (run_plain T (plain_body o) st) as (out & lines & st' & Hrun & Hs & Hb & _).
    exists out, lines, st'. rewrite Hs. auto.
Qed.

(** X1: a public call on an unlocked object never waits and ends with the
    lock released whether it returns or raises.  It stores the handles of
    a new connection and counts it when [auto_reconnect] is set, the
    object is not connected and [open_connection] succeeds; in every
    other case ([auto_reconnect] off, or the object connected, or
    [open_connection] raising) it leaves the object exactly as it was. *)
Theorem call_changes_only_by_reconnecting (o : op) st :
  _lock (sock st) = false ->
  exists out lines st',
    run T (call o) st = (out, lines, st') /\
    out <> Blocked /\
    _lock (sock st') = false /\
    (forall r w w',
        auto_reconnect (sock st) = true ->
        connected_now T st = false ->
        perform T (OpenConnection (host (sock st)) (port (sock st))) (net st)
          = (Ok (r, w), w') ->
        sock st' = connect_to r w (sock st) /\
        connection_counter (sock st') = connection_counter (sock st) + 1) /\
    (auto_reconnect (sock st) = false \/
     connected_now T st = true \/
     (exists name w',
        perform T (OpenConnection (host (sock st)) (port (sock st))) (net st)
          = (Err name, w')) ->
     sock st' = sock st).
Proof.
  intros Hlock.
  destruct (call_effect o st Hlock)
    as (out & lines & st' & Hrun & Hb & Hl & Hs).
  exists out, lines, st'. do 3 (split; [assumption|]). split.
  - intros r w w' Ha Hc Hp.
    assert (Hst : sock st' = connect_to r w (sock st)).
    { rewrite (run_call T o st Hlock), run_reconnect_if_needed, run_open,
        Ha, Hc, Hp in Hrun. cbn [andb negb] in Hrun.
      destruct (run_plain T (plain_body o)
                  {| sock := connect_to r w (sock st); net := w' |})
        as (out1 & lines1 & st1 & Hrun1 & Hs1 & _ & _).
      rewrite Hrun1 in Hrun. injection Hrun as _ _ <-. exact Hs1. }
    split; [exact Hst | rewrite Hst; reflexivity].
  - intros Hno.
    destruct Hs as [Hs|(Ha & Hc & r & w & w' & Hp & _)]; [exact Hs|].
    destruct Hno as [Hf|[Ht|(name & w1 & He)]]; congruence.
Qed.

(** X2: when [open_connection] raises, [open] raises the same error and
    the object is left as it was; with [auto_reconnect], on an object
    that is not connected, every public call ends the same way, before
    its body has asked anything of the transport, and yields nothing. *)
Theorem refused_connection_propagates st name w' :
  connected_now T st = false ->
  perform T (OpenConnection (host (sock st)) (port (sock st))) (net st)
    = (Err name, w') ->
  run T open st = (Raised (TransportError name), [], {| sock := sock st; net := w' |})
  /\ (auto_reconnect (sock st) = true -> _lock (sock st) = false ->
      forall o : op,
        run T (call o) st
        = (Raised (TransportError name), [], {| sock := sock st; net := w' |})).
Proof.
  intros Hc Hp.
  assert (Ho : run T open st
               = (Raised (TransportError name), [], {| sock := sock st; net := w' |}))
    by (rewrite run_open, Hc, Hp; reflexivity).
  split; [exact Ho|]. intros Hauto Hlock o.
  rewrite (run_call T o st Hlock), run_reconnect_if_needed, Hauto, Hc, Ho.
  reflexivity.
Qed.

(** X3: [read], [readline], [readexactly] and [readuntil], when no
    reconnect is due, are the one call to the reader: what it returns is
    returned, what it raises is raised, and the object is not touched.
    Without [auto_reconnect] this holds also on a reader at
    end-of-stream. *)
Theorem reads_pass_through (o : op) st r (c : tcall bytes) :
  read_call o r = Some c ->
  _lock (sock st) = false ->
  _reader (sock st) = Some r ->
  auto_reconnect (sock st) = false \/ connected_now T st = true ->
  run T (call o) st =
  match perform T c (net st) with
  | (Ok data, w') => (Returned (VBytes data), [], {| sock := sock st; net := w' |})
  | (Err name, w') =>
      (Raised (TransportError name), [], {| sock := sock st; net := w' |})
  end.
Proof.
  intros Hc Hlock Hr Hno.
  rewrite (run_call T o st Hlock), (run_no_reconnect T st Hno).
  destruct o; try discriminate Hc; injection Hc as <-;
    cbn [undecorated body_of f_read f_readline f_readexactly f_readuntil];
    rewrite run_bind, (run_load_reader T st Hr); simpl;
    destruct (perform T _ (net st)) as [[data|name] w']; reflexivity.
Qed.

(** X4: [write] and [writelines], when no reconnect is due, hand the data
    to the writer and then drain it; when the first of the two raises the
    second is not made; the result is [None]. *)
Theorem writes_are_drained (o : op) st w (c : tcall unit) :
  write_call o w = Some c ->
  _lock (sock st) = false ->
  _writer (sock st) = Some w ->
  auto_reconnect (sock st) = false \/ connected_now T st = true ->
  run T (call o) st =
  match perform T c (net st) with
  | (Err name, w1) =>
      (Raised (TransportError name), [], {| sock := sock st; net := w1 |})
  | (Ok _, w1) =>
      match perform T (Drain w) w1 with
      | (Err name, w2) =>
          (Raised (TransportError name), [], {| sock := sock st; net := w2 |})
      | (Ok _, w2) => (Returned VNone, [], {| sock := sock st; net := w2 |})
      end
  end.
Proof.
  intros Hc Hlock Hw Hno.
  rewrite (run_call T o st Hlock), (run_no_reconnect T st Hno).
  destruct o; try discriminate Hc; injection Hc as <-;
    cbn [undecorated body_of f_write f_writelines]; unfold invoke;
    rewrite run_bind, (run_load_writer T st Hw); simpl;
    (destruct (perform T _ (net st)) as [[[]|name] w1]; simpl; [|reflexivity]);
    rewrite Hw; simpl;
    destruct (perform T (Drain w) w1) as [[[]|name] w2]; reflexivity.
Qed.

(** X5: [write_readline], when no reconnect is due, writes the data,
    drains the writer and only then reads one line, which it returns; the
    first of the three that raises ends the call with that error. *)
Theorem write_readline_asks_then_reads (data : bytes) st r w :
  _lock (sock st) = false ->
  _reader (sock st) = Some r ->
  _writer (sock st) = Some w ->
  auto_reconnect (sock st) = false \/ connected_now T st = true ->
  run T (write_readline data) st =
  match perform T (Write w data) (net st) with
  | (Err name, w1) =>
      (Raised (TransportError name), [], {| sock := sock st; net := w1 |})
  | (Ok _, w1) =>
      match perform T (Drain w) w1 with
      | (Err name, w2) =>
          (Raised (TransportError name), [], {| sock := sock st; net := w2 |})
      | (Ok _, w2) =>
          match perform T (Readline r) w2 with
          | (Err name, w3) =>
              (Raised (TransportError name), [], {| sock := sock st; net := w3 |})
          | (Ok line, w3) =>
              (Returned (VBytes line), [], {| sock := sock st; net := w3 |})
          end
      end
  end.
Proof.
  intros Hlock Hr Hw Hno.
  change (write_readline data) with (@call reader writer (op_write_readline data)).
  rewrite (run_call T _ st Hlock), (run_no_reconnect T st Hno).
  cbn [undecorated body_of f_write_readline]; unfold invoke.
  rewrite run_bind, (run_load_writer T st Hw); simpl.
  destruct (perform T (Write w data) (net st)) as [[[]|name] w1]; simpl; [|reflexivity].
  rewrite Hw; simpl.
  destruct (perform T (Drain w) w1) as [[[]|name] w2]; simpl; [|reflexivity].
  rewrite Hr; simpl.
  destruct (perform T (Readline r) w2) as [[line|name] w3]; reflexivity.
Qed.

(** *** The streaming calls when a read fails *)

Ltac run_bind_step :=
  match goal with
  | |- context [run ?T (bind ?p ?f) ?st] => rewrite (run_bind T p f st)
  end.

Lemma run_await_eq {X} (c : tcall X) st :
  run T (await c) st =
  match perform T c (net st) with
  | (Ok v, w') => (Returned v, [], {| sock := sock st; net := w' |})
  | (Err name, w') =>
      (Raised (TransportError name), [], {| sock := sock st; net := w' |})
  end.
Proof. simpl. destruct (perform T c (net st)) as [[v|name] w']; reflexivity. Qed.

Lemma run_loop_until_error (k : nat) r st :
  _reader (sock st) = Some r ->
  run T (for_range k (r <- load_reader ;;
                      line <- await (Readline r) ;;
                      Yield line (Ret tt))) st
  = let '(lines, e, w') := read_lines_until_error T r k (net st) in
    (match e with
     | None => Returned tt
     | Some name => Raised (TransportError name)
     end, lines, {| sock := sock st; net := w' |}).
Proof.
  revert st; induction k as [|k IH]; intros st Hr.
  - destruct st; reflexivity.
  - cbn [for_range read_lines_until_error]. run_bind_step.
    run_bind_step; rewrite (run_load_reader T st Hr). cbv beta iota.
    run_bind_step. simpl (run T (await (Readline r)) st).
    destruct (perform T (Readline r) (net st)) as [[line|name] w1]; [|reflexivity].
    cbn [run app]. cbv beta iota.
    rewrite (IH {| sock := sock st; net := w1 |} Hr). cbn [sock net].
    destruct (read_lines_until_error T r k w1) as [[lines e] w'].
    destruct e; reflexivity.
Qed.

Lemma read_lines_until_error_length r (k : nat) w :
  let '(lines, e, _) := read_lines_until_error T r k w in
  (length lines <= k)%nat /\ (e = None -> length lines = k).
Proof.
  revert w; induction k as [|k IH]; intros w; simpl.
  - auto.
  - destruct (perform T (Readline r) w) as [[line|name] w1].
    + specialize (IH w1).
      destruct (read_lines_until_error T r k w1) as [[lines e] w'].
      destruct IH as [Hle Heq]. simpl. split; [lia | intros He; rewrite (Heq He); reflexivity].
    + simpl. split; [lia | discriminate].
Qed.

(** X6: [readlines(n)], when no reconnect is due, yields the lines in the
    order they are read; when a read raises, the lines read before it
    have been yielded and the error ends the sequence.  At most [n] lines
    are yielded, and exactly [n] when no read raises. *)
Theorem readlines_yields_until_a_read_raises (n : Z) st r :
  _lock (sock st) = false ->
  _reader (sock st) = Some r ->
  auto_reconnect (sock st) = false \/ connected_now T st = true ->
  let '(lines, e, w') := read_lines_until_error T r (Z.to_nat n) (net st) in
  run T (readlines n) st = (stream_end e, lines, {| sock := sock st; net := w' |})
  /\ (length lines <= Z.to_nat n)%nat
  /\ (e = None -> length lines = Z.to_nat n).
Proof.
  intros Hlock Hr Hno.
  pose proof (read_lines_until_error_length r (Z.to_nat n) (net st)) as Hlen.
  change (readlines n) with (@call reader writer (op_readlines n)).
  rewrite (run_call T _ st Hlock), (run_no_reconnect T st Hno).
  cbn [undecorated body_of f_readlines].
  run_bind_step; rewrite (run_loop_until_error (Z.to_nat n) st Hr).
  destruct (read_lines_until_error T r (Z.to_nat n) (net st)) as [[lines e] w'].
  split; [|exact Hlen].
  destruct e; simpl; rewrite ?app_nil_r; reflexivity.
Qed.

(** X7: [write_readlines(data, n)], when no reconnect is due, writes and
    drains first; if either raises, nothing is yielded.  Then it yields
    the lines as they are read, up to the first read that raises. *)
Theorem write_readlines_writes_before_it_yields (data : bytes) (n : Z) st r w :
  _lock (sock st) = false ->
  _reader (sock st) = Some r ->
  _writer (sock st) = Some w ->
  auto_reconnect (sock st) = false \/ connected_now T st = true ->
  run T (write_readlines data n) st =
  match perform T (Write w data) (net st) with
  | (Err name, w1) =>
      (Raised (TransportError name), [], {| sock := sock st; net := w1 |})
  | (Ok _, w1) =>
      match perform T (Drain w) w1 with
      | (Err name, w2) =>
          (Raised (TransportError name), [], {| sock := sock st; net := w2 |})
      | (Ok _, w2) =>
          let '(lines, e, w3) := read_lines_until_error T r (Z.to_nat n) w2 in
          (stream_end e, lines, {| sock := sock st; net := w3 |})
      end
  end.
Proof.
  intros Hlock Hr Hw Hno.
  change (write_readlines data n)
    with (@call reader writer (op_write_readlines data n)).
  rewrite (run_call T _ st Hlock), (run_no_reconnect T st Hno).
  cbn [undecorated body_of f_write_readlines]; unfold invoke.
  run_bind_step; rewrite (run_load_writer T st Hw). cbv beta iota.
  run_bind_step; rewrite run_await_eq.
  destruct (perform T (Write w data) (net st)) as [[[]|name] w1]; [|reflexivity].
  cbv beta iota.
  run_bind_step; rewrite (run_load_writer T {| sock := sock st; net := w1 |} Hw).
  cbv beta iota.
  run_bind_step; rewrite run_await_eq. cbn [sock net].
  destruct (perform T (Drain w) w1) as [[[]|name] w2]; [|reflexivity].
  cbv beta iota.
  run_bind_step;
    rewrite (run_loop_until_error (Z.to_nat n) {| sock := sock st; net := w2 |} Hr).
  cbn [sock net].
  destruct (read_lines_until_error T r (Z.to_nat n) w2) as [[lines e] w3].
  destruct e; simpl; rewrite ?app_nil_r; reflexivity.
Qed.

(** *** A caller doing several things in a row *)

Lemma paired_connect_to s r w : paired (connect_to r w s).
Proof. split; discriminate. Qed.

Lemma paired_forget s : paired (forget s).
Proof. split; reflexivity. Qed.

Lemma api_effect (a : action) st :
  _lock (sock st) = false ->
  exists out lines st',
    run T (api a) st = (out, lines, st') /\
    out <> Blocked /\
    (sock st' = sock st \/
     (exists r w, sock st' = connect_to r w (sock st)) \/
     sock st' = forget (sock st)).
Proof.
  intros Hlock. destruct a as [| |o]; cbn [api].
  - run_bind_step; rewrite run_open.
    destruct (connected_now T st).
    + eexists _, _, _. split; [reflexivity|]. split; [discriminate|]. auto.
    + destruct (perform T (OpenConnection (host (sock st)) (port (sock st))) (net st))
        as [[[r w]|name] w'];
        (eexists _, _, _; split; [reflexivity|]; split; [discriminate|]);
        simpl; eauto.
  - run_bind_step; rewrite run_close.
    destruct (_writer (sock st)) as [w|].
    + destruct (perform T (Close w) (net st)) as [[[]|name] w1];
        [destruct (perform T (WaitClosed w) w1) as [[[]|name] w2]|];
        (eexists _, _, _; split; [reflexivity|]; split; [discriminate|]);
        simpl; auto.
    + eexists _, _, _; split; [reflexivity|]; split; [discriminate|]; simpl; auto.
  - destruct (call_effect o st Hlock)
      as (out & lines & st' & Hrun & Hb & _ & [Hs|(_ & _ & r & w & w' & _ & Hs)]);
      exists out, lines, st'; eauto 10.
Qed.

(** X8: whatever a single caller does with the object, [open], [close]
    and public calls in any order, going on after exceptions, no step
    waits on the lock and after all of them the lock is released, the
    two handles are both set or both [None], [host], [port] and
    [auto_reconnect] are what they were, and [connection_counter] has not
    gone down and has grown by at most one per step. *)
Theorem session_keeps_the_object_consistent (l : list action) st :
  _lock (sock st) = false ->
  paired (sock st) ->
  let '(results, st') := session T l st in
  length results = length l /\
  Forall (fun res => fst res <> Blocked) results /\
  _lock (sock st') = false /\
  paired (sock st') /\
  host (sock st') = host (sock st) /\
  port (sock st') = port (sock st) /\
  auto_reconnect (sock st') = auto_reconnect (sock st) /\
  connection_counter (sock st) <= connection_counter (sock st')
    <= connection_counter (sock st) + Z.of_nat (length l).
Proof.
  revert st; induction l as [|a l IH]; intros st Hlock Hp.
  - simpl. split; [reflexivity|]. split; [constructor|].
    split; [exact Hlock|]. split; [exact Hp|]. repeat split; lia.
  - cbn [session].
    destruct (api_effect a st Hlock) as (out & lines & st1 & Hrun & Hb & Hs).
    rewrite Hrun.
    assert (H1 : _lock (sock st1) = false /\ paired (sock st1) /\
                 host (sock st1) = host (sock st) /\
                 port (sock st1) = port (sock st) /\
                 auto_reconnect (sock st1) = auto_reconnect (sock st) /\
                 connection_counter (sock st) <= connection_counter (sock st1)
                   <= connection_counter (sock st) + 1).
    { destruct Hs as [->|[(r & w & ->)| ->]].
      - split; [exact Hlock|]. split; [exact Hp|]. repeat split; lia.
      - split; [exact Hlock|]. split; [apply paired_connect_to|].
        simpl. repeat split; lia.
      - split; [exact Hlock|]. split; [apply paired_forget|].
        simpl. repeat split; lia. }
    destruct H1 as (Hl1 & Hp1 & Hh & Hpt & Ha & Hc).
    specialize (IH st1 Hl1 Hp1).
    destruct (session T l st1) as [rest st2].
    destruct IH as (Hlen & Hall & Hl2 & Hp2 & Hh2 & Hpt2 & Ha2 & Hc2).
    split; [simpl; rewrite Hlen; reflexivity|].
    split; [constructor; [exact Hb | exact Hall]|].
    split; [exact Hl2|]. split; [exact Hp2|].
    split; [congruence|]. split; [congruence|]. split; [congruence|].
    rewrite length_cons. lia.
Qed.

Lemma call_on_live (o : op) st r w good :
  _lock (sock st) = false ->
  _reader (sock st) = Some r ->
  _writer (sock st) = Some w ->
  dependable T good ->
  good (net st) ->
  at_eof T r (net st) = false ->
  exists v lines st',
    run T (call o) st = (Returned v, lines, st') /\
    sock st' = sock st /\
    good (net st').
Proof.
  intros Hlock Hr Hw Hd Hg He.
  assert (Hc : connected_now T st = true)
    by (rewrite connected_now_eq, Hr, He; reflexivity).
  rewrite (run_call T o st Hlock), (run_no_reconnect T st (or_intror Hc)).
  destruct (run_plain T (plain_body o) st) as (out & lines & st' & Hrun & Hs & _ & _).
  destruct (run_sound T (sound_body o (sock st) Hr Hw) st eq_refl)
    as (out' & lines' & st2 & Hrun' & _ & Hgood).
  rewrite Hrun in Hrun'; injection Hrun' as <- <- <-.
  destruct (Hgood good Hd Hg) as [[v ->] Hg'].
  exists v, lines, st'. auto.
Qed.

Lemma session_on_live (ops : list op) st r w good :
  _lock (sock st) = false ->
  _reader (sock st) = Some r ->
  _writer (sock st) = Some w ->
  dependable T good ->
  (forall w', good w' -> at_eof T r w' = false) ->
  good (net st) ->
  let '(results, st') := session T (map do_call ops) st in
  Forall (fun res => exists v, fst res = Returned v) results /\
  length results = length ops /\
  sock st' = sock st /\
  good (net st').
Proof.
  intros Hlock Hr Hw Hd Hlive. revert st Hlock Hr Hw.
  induction ops as [|o ops IH]; intros st Hlock Hr Hw Hg.
  - simpl. auto.
  - cbn [map session api].
    destruct (call_on_live o st Hlock Hr Hw Hd Hg (Hlive _ Hg))
      as (v & lines & st1 & Hrun & Hs & Hg1).
    rewrite Hrun. rewrite <- Hs in Hlock, Hr, Hw.
    specialize (IH st1 Hlock Hr Hw Hg1).
    destruct (session T (map do_call ops) st1) as [rest st2].
    destruct IH as (Hall & Hlen & Hs2 & Hg2).
    split; [constructor; [simpl; eauto | exact Hall]|].
    split; [simpl; rewrite Hlen; reflexivity|].
    split; [congruence | exact Hg2].
Qed.

(** X9: on a freshly constructed object with [auto_reconnect], over a
    transport that accepts the connection, then answers every call and
    never reports end-of-stream on it, any number of public calls made
    one after the other all return and share one connection: the counter
    is 1 after the last as after the first. *)
Theorem session_shares_one_connection
    (o : op) (ops : list op) (h : string) (p : Z) w r wr w1 good :
  perform T (OpenConnection h p) w = (Ok (r, wr), w1) ->
  dependable T good ->
  (forall w', good w' -> at_eof T r w' = false) ->
  good w1 ->
  let '(results, st') :=
    session T (map do_call (o :: ops)) {| sock := __init__ h p true; net := w |} in
  Forall (fun res => exists v, fst res = Returned v) results /\
  length results = S (length ops) /\
  connection_counter (sock st') = 1 /\
  _reader (sock st') = Some r /\
  _writer (sock st') = Some wr.
Proof.
  intros Hp Hd Hlive Hg.
  set (st := {| sock := __init__ h p true; net := w |}).
  set (st1 := {| sock := connect_to r wr (sock st); net := w1 |}).
  assert (Hrec : run T reconnect_if_needed st = (Returned tt, [], st1)).
  { rewrite run_reconnect_if_needed, run_open, connected_now_eq.
    subst st st1; simpl. rewrite Hp. reflexivity. }
  cbn [map session api].
  rewrite (run_call T o st eq_refl), Hrec.
  destruct (run_plain T (plain_body o) st1) as (out & lines & st2 & Hrun & Hs & _ & _).
  destruct (run_sound T (sound_body o (sock st1) (r := r) (w := wr) eq_refl eq_refl)
              st1 eq_refl) as (out' & lines' & st2' & Hrun' & _ & Hgood).
  rewrite Hrun in Hrun'; injection Hrun' as <- <- <-.
  destruct (Hgood good Hd Hg) as [[v ->] Hg2].
  rewrite Hrun.
  assert (Hl2 : _lock (sock st2) = false) by (rewrite Hs; reflexivity).
  assert (Hr2 : _reader (sock st2) = Some r) by (rewrite Hs; reflexivity).
  assert (Hw2 : _writer (sock st2) = Some wr) by (rewrite Hs; reflexivity).
  pose proof (session_on_live ops st2 Hl2 Hr2 Hw2 Hd Hlive Hg2) as H.
  destruct (session T (map do_call ops) st2) as [rest st3].
  destruct H as (Hall & Hlen & Hs3 & _).
  split; [constructor; [simpl; eauto | exact Hall]|].
  split; [simpl; rewrite Hlen; reflexivity|].
  rewrite Hs3, Hs. repeat split.
Qed.

(** X13: [close] keeps the counter, and after a [close] that returned
    the object can be opened again: given that the transport connects,
    [open] does not raise the already-open error, stores the new handles
    and counts one more connection; with [auto_reconnect] the next public
    call does that by itself before running its body. *)
Theorem close_then_open_again st st1 :
  run T close st = (Returned tt, [], st1) ->
  connection_counter (sock st1) = connection_counter (sock st)
  /\ forall r w w',
      perform T (OpenConnection (host (sock st1)) (port (sock st1))) (net st1)
        = (Ok (r, w), w') ->
      run T open st1
        = (Returned tt, [], {| sock := connect_to r w (sock st1); net := w' |})
      /\ connection_counter (connect_to r w (sock st1))
         = connection_counter (sock st) + 1
      /\ (auto_reconnect (sock st1) = true -> _lock (sock st1) = false ->
          forall o : op,
            run T (call o) st1
            = run T (body_of (undecorated o))
                {| sock := connect_to r w (sock st1); net := w' |}).
Proof.
  intros H.
  assert (Hs : sock st1 = forget (sock st)).
  { rewrite run_close in H. destruct (_writer (sock st)) as [w|].
    - destruct (perform T (Close w) (net st)) as [[[]|name] n1]; [|discriminate].
      destruct (perform T (WaitClosed w) n1) as [[[]|name] n2]; [|discriminate].
      injection H as <-; reflexivity.
    - injection H as <-; reflexivity. }
  assert (Hc : connected_now T st1 = false)
    by (rewrite connected_now_eq, Hs; reflexivity).
  split; [rewrite Hs; reflexivity|].
  intros r w w' Hp.
  assert (Ho : run T open st1
               = (Returned tt, [], {| sock := connect_to r w (sock st1); net := w' |}))
    by (rewrite run_open, Hc, Hp; reflexivity).
  split; [exact Ho|]. split; [rewrite Hs; reflexivity|].
  intros Hauto Hlock o.
  rewrite (run_call T o st1 Hlock), run_reconnect_if_needed, Hauto, Hc, Ho.
  reflexivity.
Qed.

(** *** The first call on a new object *)

Lemma run_body_as_specified (o : op) st r wr v lines w2 :
  _reader (sock st) = Some r ->
  _writer (sock st) = Some wr ->
  spec_operation T o r wr (net st) = (Ok (v, lines), w2) ->
  run T (body_of (undecorated o)) st
  = (Returned v, lines, {| sock := sock st; net := w2 |}).
Proof.
  intros Hr Hw H.
  destruct o;
    cbn [undecorated body_of f_read f_readline f_readlines f_readexactly
           f_readuntil f_write f_writelines f_write_readline f_write_readlines
           f_writelines_readlines];
    unfold invoke; unfold spec_operation, spec_block, spec_lines, spec_flushed in H.
  all: repeat (first
    [ progress (cbv beta iota; cbn [sock net])
    | run_bind_step
    | match goal with
      | |- context [run T load_reader ?s] =>
          rewrite (run_load_reader T s (r := r) Hr)
      | |- context [run T load_writer ?s] =>
          rewrite (run_load_writer T s (w := wr) Hw)
      end
    | rewrite run_await_eq; cbn [sock net];
      match goal with
      | |- context [perform T ?c ?w] =>
          let E := fresh "E" in
          destruct (perform T c w) as [[?|?] ?] eqn:E;
          rewrite ?E in H; cbn [spec_then] in H; [|discriminate H]
      end ]).
  all: try (injection H as <- <- <-; reflexivity).
  all: match type of H with
       | context [spec_read_lines T ?r0 ?k ?w] =>
           let E := fresh "E" in
           destruct (spec_read_lines T r0 k w) as [[?|?] ?] eqn:E;
           cbn [spec_then] in H; [|discriminate H];
           injection H as <- <- <-;
           match goal with
           | |- context [run T (for_range k ?body) ?st0] =>
               rewrite (run_read_loop T k st0 (r := r0) Hr E)
           end;
           simpl; rewrite ?app_nil_r; reflexivity
       end.
Qed.

(** C3: on a freshly constructed object with [auto_reconnect], when the
    transport accepts the connection and then serves the calls of the
    operation (the reads deliver, the writes and the flush go through),
    each of the ten public methods returns what the operation specifies,
    having yielded its lines, after exactly one [open]: the counter goes
    from 0 to 1, the handles are those of that connection, the lock is
    released, and the transport was asked for the connection and then
    for the calls of the operation and nothing else. *)
Theorem first_call_opens_once
    (o : op) (h : string) (p : Z) w r wr w1 v lines w2 :
  perform T (OpenConnection h p) w = (Ok (r, wr), w1) ->
  spec_operation T o r wr w1 = (Ok (v, lines), w2) ->
  run T (call o) {| sock := __init__ h p true; net := w |}
    = (Returned v, lines,
       {| sock := connect_to r wr (__init__ h p true); net := w2 |})
  /\ connection_counter (@__init__ reader writer h p true) = 0
  /\ connection_counter (connect_to r wr (__init__ h p true)) = 1
  /\ _reader (connect_to r wr (__init__ h p true)) = Some r
  /\ _writer (connect_to r wr (__init__ h p true)) = Some wr
  /\ _lock (connect_to r wr (__init__ h p true)) = false.
Proof.
  intros Hp Hspec.
  set (st := {| sock := __init__ h p true; net := w |}).
  set (st1 := {| sock := connect_to r wr (sock st); net := w1 |}).
  assert (Hrec : run T reconnect_if_needed st = (Returned tt, [], st1)).
  { rewrite run_reconnect_if_needed, run_open, connected_now_eq.
    subst st st1; simpl. rewrite Hp. reflexivity. }
  split; [|repeat split].
  rewrite (run_call T o st eq_refl), Hrec.
  exact (run_body_as_specified o st1 (r := r) (wr := wr) eq_refl eq_refl Hspec).
Qed.

End Calls.

(** * More on interleaved callers *)

Section Interleaving.

Context {reader writer world : Type} (T : @Transport reader writer world).
Implicit Types (st : @state reader writer world) (s : @Socket reader writer).
Implicit Types (t : @task reader writer) (l : list (@task reader writer)).
Implicit Types (c : @system reader writer world).
Local Abbreviation prog := (@prog reader writer).
Local Abbreviation event := (@event reader writer).
Local Abbreviation streaming := (@streaming reader writer).

(** *** The lock and the callers that end *)

Lemma owned_start (ops : list op) st :
  _lock (sock st) = false -> owned (start ops st).
Proof. intros Hl Ht. simpl in Ht. congruence. Qed.

Lemma step_owned (m : move) c c' :
  owned c -> step T m c = Some c' -> owned c'.
Proof.
  intros Ho H. destruct m as [i|i|w]; simpl in H.
  - destruct (tasks c !! i) as [t|] eqn:Hi; [|discriminate].
    destruct (step_task T t (shared c)) as [[t' st']|] eqn:Hs; [|discriminate].
    injection H as <-. unfold step_task in Hs.
    pose proof (lookup_lt_Some _ _ _ Hi) as Hlt.
    destruct (code t) as [r|e|X e k|line k] eqn:Hc; try discriminate.
    + destruct (handle T e (shared c)) as [[x st1]|] eqn:Hh; [|discriminate].
      injection Hs as <- <-.
      destruct (is_lock_event e) eqn:L.
      * destruct e; try discriminate L; simpl in Hh.
        -- intros _. eexists i, _. split; [apply list_lookup_insert_eq, Hlt|].
           reflexivity.
        -- injection Hh as _ <-. intros Hl; simpl in Hl; discriminate.
      * intros Hl; simpl in Hl.
        rewrite (handle_keeps_lock T e (shared c) L Hh) in Hl.
        destruct (Ho Hl) as (j & tj & Hj & Htj).
        destruct (decide (i = j)) as [<-|Hne].
        -- eexists i, _. split; [apply list_lookup_insert_eq, Hlt|].
           simpl. rewrite Hi in Hj; injection Hj as <-.
           destruct e; try discriminate L; exact Htj.
        -- exists j, tj. split; [|exact Htj].
           simpl. rewrite list_lookup_insert_ne; assumption.
    + injection Hs as <- <-. intros Hl; simpl in Hl.
      destruct (Ho Hl) as (j & tj & Hj & Htj).
      destruct (decide (i = j)) as [<-|Hne].
      * eexists i, _. split; [apply list_lookup_insert_eq, Hlt|].
        simpl. rewrite Hi in Hj; injection Hj as <-. exact Htj.
      * exists j, tj. split; [|exact Htj].
        simpl. rewrite list_lookup_insert_ne; assumption.
  - destruct (tasks c !! i) as [t|] eqn:Hi; [|discriminate].
    unfold cancel_task in H. destruct (finished t); [discriminate|].
    injection H as <-. intros Hl; simpl in Hl.
    destruct (held t) eqn:Ht; [simpl in Hl; discriminate|].
    destruct (Ho Hl) as (j & tj & Hj & Htj).
    destruct (decide (i = j)) as [<-|Hne].
    + rewrite Hi in Hj; injection Hj as <-. congruence.
    + exists j, tj. split; [|exact Htj].
      simpl. rewrite list_lookup_insert_ne; assumption.
  - injection H as <-. exact Ho.
Qed.

Lemma exec_owned (ms : list move) c c' :
  orderly c -> owned c -> exec T ms c = Some c' -> orderly c' /\ owned c'.
Proof.
  revert c; induction ms as [|m ms IH]; intros c Hc Ho H; simpl in H.
  - injection H as <-; auto.
  - destruct (step T m c) as [c1|] eqn:Hs; [|discriminate].
    apply (IH c1); [eapply step_orderly | eapply step_owned | ]; eassumption.
Qed.

(** X10: no caller leaves the lock taken behind it.  Starting from an
    unlocked object, in every state an interleaving of callers of the
    public methods can reach, cancellations included: a taken lock
    belongs to a caller that is inside its [async with] block and has not
    ended; a caller that has ended (returned, raised or was cancelled)
    is not inside the block; and once every caller has ended the lock is
    free. *)
Theorem lock_is_released_on_every_exit (ops : list op) st (ms : list move) c :
  _lock (sock st) = false ->
  exec T ms (start ops st) = Some c ->
  (_lock (sock (shared c)) = true ->
   exists i t, tasks c !! i = Some t /\ held t = true /\ finished t = false)
  /\ (forall i t, tasks c !! i = Some t -> finished t = true -> held t = false)
  /\ ((forall i t, tasks c !! i = Some t -> finished t = true) ->
      _lock (sock (shared c)) = false).
Proof.
  intros Hl H.
  destruct (exec_owned ms (orderly_start ops st) (owned_start ops st Hl) H)
    as [(Hu & He & Hd) Ho].
  assert (Hholder : forall i t, tasks c !! i = Some t -> held t = true ->
            finished t = false).
  { intros i t Hi Ht. pose proof (Hd _ _ Hi) as Hdt. rewrite Ht in Hdt.
    unfold finished.
    destruct (code t) as [r|e|X e k|line k]; simpl in Hdt;
      try discriminate Hdt; reflexivity. }
  assert (Hlive : _lock (sock (shared c)) = true ->
            exists i t, tasks c !! i = Some t /\ held t = true /\ finished t = false).
  { intros Hlock. destruct (Ho Hlock) as (i & t & Hi & Ht).
    exists i, t. split; [exact Hi|]. split; [exact Ht|].
    exact (Hholder _ _ Hi Ht). }
  split; [exact Hlive|]. split.
  - intros i t Hi Hf. destruct (held t) eqn:Ht; [|reflexivity].
    rewrite (Hholder _ _ Hi Ht) in Hf. discriminate Hf.
  - intros Hall. destruct (_lock (sock (shared c))) eqn:Hlock; [|reflexivity].
    destruct (Hlive eq_refl) as (i & t & Hi & _ & Hf).
    rewrite (Hall _ _ Hi) in Hf. discriminate Hf.
Qed.

(** *** The counter under interleaving *)

Lemma counts_plain {R} (p : prog R) : plain p -> forall h n, counts h n p.
Proof.
  induction 1 as [a|e|k Hk Hp IH|X c k Hc Hp IH|line k Hp IH]; intros h n; simpl; auto.
Qed.

Lemma not_lock_event_holds {X} (e : event X) h :
  is_lock_event e = false -> holds_after e h = h.
Proof. destruct e; try discriminate; reflexivity. Qed.

Lemma counts_bind_inside {A B} n (p : prog A) (f : A -> prog B) :
  counts true n p -> inside p ->
  (forall a n', counts true n' (f a)) ->
  counts true n (bind p f).
Proof.
  intros Hp Hin Hf; revert n Hp; induction p as [a|e|X e k IH|line k IH];
    intros n Hp; simpl in *.
  - apply Hf.
  - exact I.
  - destruct Hp as [Hm Hk], Hin as [He Hi]. split; [exact Hm|].
    intros x Hx n' Hn'. specialize (Hk x Hx n' Hn').
    rewrite (not_lock_event_holds e true He) in *. apply IH; auto.
  - apply IH; auto.
Qed.

Lemma counts_finally {R} n (p : prog R) :
  counts true n p -> inside p ->
  counts true n (finally p (trigger Release)).
Proof.
  intros Hp Hin; revert n Hp; induction p as [a|e|X e k IH|line k IH];
    intros n Hp; simpl in *.
  - split; [exact I|]. intros _ _ n' _. exact I.
  - split; [exact I|]. intros _ _ n' _. exact I.
  - destruct Hp as [Hm Hk], Hin as [He Hi]. split; [exact Hm|].
    intros x Hx n' Hn'. specialize (Hk x Hx n' Hn').
    rewrite (not_lock_event_holds e true He) in *. apply IH; auto.
  - apply IH; auto.
Qed.

Lemma counts_finally_then {A B} n (v : A) (p : prog A) (f : A -> prog B) :
  counts true n p -> inside p -> returns_only v p ->
  (forall n', counts false n' (f v)) ->
  counts true n (bind (finally p (trigger Release)) f).
Proof.
  intros Hp Hin Hv Hf; revert n Hp; induction p as [a|e|X e k IH|line k IH];
    intros n Hp; simpl in *.
  - subst a. split; [exact I|]. intros _ _ n' _. apply Hf.
  - split; [exact I|]. intros _ _ n' _. exact I.
  - destruct Hp as [Hm Hk], Hin as [He Hi]. split; [exact Hm|].
    intros x Hx n' Hn'. specialize (Hk x Hx n' Hn').
    rewrite (not_lock_event_holds e true He) in *. apply IH; auto.
  - apply IH; auto.
Qed.

Lemma counts_stream {R} (g : prog R) (f : unit -> prog value) :
  plain g ->
  (forall a h n, counts h n (f a)) ->
  forall h n, counts h n (bind (async_for g (fun line => Yield line (Ret tt))) f).
Proof.
  intros Hg Hf.
  induction Hg as [a|e|k Hk Hp IH|X c k Hc Hp IH|line k Hp IH]; intros h n; simpl; auto.
Qed.

Lemma counts_connected_then {B} n (f : bool -> prog B) :
  (forall b, counts true n (f b)) -> counts true n (bind connected f).
Proof.
  intros Hf. unfold connected; simpl. split; [exact I|].
  intros s _ n' ->. destruct (_reader s) as [r|]; simpl; [|apply Hf].
  split; [exact I|]. intros eof _ n' ->. apply Hf.
Qed.

Lemma counts_open n : counts true n (@open reader writer).
Proof.
  unfold open. apply counts_connected_then. intros [|]; simpl; [exact I|].
  split; [exact I|]. intros s _ n1 ->.
  split; [exact I|]. intros [[r w]|name] _ n2 ->; simpl; [|exact I].
  split; [exact I|]. intros _ _ n3 ->.
  split; [exact I|]. intros _ _ n4 ->.
  split; [exact I|]. intros s' Hs n5 ->.
  split; [split; [reflexivity | rewrite (Hs eq_refl); lia]|].
  intros _ _ n6 _. exact I.
Qed.

Lemma counts_reconnect_if_needed n :
  counts true n (@reconnect_if_needed reader writer).
Proof.
  unfold reconnect_if_needed. cbn [bind trigger counts]. split; [exact I|].
  intros s _ n' ->. cbn [bind holds_after].
  destruct (auto_reconnect s); [|exact I].
  apply counts_connected_then. intros [|]; [exact I | apply counts_open].
Qed.

Lemma counts_call (o : op) n : counts false n (@call reader writer o).
Proof.
  assert (Hin : forall (A : Type) (f : prog A),
             inside f -> (forall m, counts true m f) ->
             forall m, counts true m (bind reconnect_if_needed (fun _ => f)) /\
                       inside (bind reconnect_if_needed (fun _ => f))).
  { intros A f Hi Hc m. split.
    - apply counts_bind_inside;
        [apply counts_reconnect_if_needed | apply inside_reconnect_if_needed
        | intros _ n'; apply Hc].
    - apply inside_bind; [apply inside_reconnect_if_needed | intros _; exact Hi]. }
  pose proof (plain_body (reader := reader) (writer := writer) o) as Hp.
  destruct o; unfold call, read, readline, readlines, readexactly, readuntil,
    write, writelines, write_readline, write_readlines, writelines_readlines;
    match goal with
    | |- counts _ _ (ensure_connection ?f) =>
        change (plain (body_of f)) in Hp; set (body := body_of f) in *;
        first [ change (ensure_connection f)
                  with (ensure_connection (CoroutineFunction body))
              | change (ensure_connection f)
                  with (ensure_connection (AsyncGenFunction body)) ];
        clearbody body
    end;
    unfold ensure_connection, async_with_lock; cbn [bind trigger counts];
    (split; [exact I|]); intros _ _ m _; cbn [holds_after].
  all: try (apply counts_finally;
            [ exact (proj1 (Hin _ body (plain_inside Hp)
                              (fun m' => counts_plain Hp true m') m))
            | exact (proj2 (Hin _ body (plain_inside Hp)
                              (fun m' => counts_plain Hp true m') m)) ]).
  all: apply counts_finally_then with (v := body);
    [ exact (proj1 (Hin _ (Ret body) I (fun _ => I) m))
    | exact (proj2 (Hin _ (Ret body) I (fun _ => I) m))
    | apply returns_only_bind; intros _; reflexivity
    | intros n'; apply counts_stream; [exact Hp | intros; exact I] ].
Qed.

Lemma counting_start (ops : list op) st : counting (start ops st).
Proof.
  intros i t H. destruct (lookup_spawned ops i H) as [Hh Hc].
  rewrite Hh, Hc. intros n; apply counts_call.
Qed.

Lemma counting_update c i t t' st' :
  counting c ->
  tasks c !! i = Some t ->
  (if held t'
   then counts true (connection_counter (sock st')) (code t')
   else forall n, counts false n (code t')) ->
  connection_counter (sock st') = connection_counter (sock (shared c)) \/
    held t = true /\ exclusive (tasks c) ->
  counting {| shared := st'; tasks := <[i:=t']> (tasks c) |}.
Proof.
  intros Hc Hi Hself Hothers j tj Hj. simpl in *.
  apply list_lookup_insert_Some in Hj as [(_ & <- & _)|(Hne & Hj)]; [exact Hself|].
  pose proof (Hc j tj Hj) as H. destruct (held tj) eqn:Htj; [|exact H].
  destruct Hothers as [-> | [Ht He]]; [exact H|].
  exfalso; apply Hne. exact (He _ _ _ _ Hi Hj Ht Htj).
Qed.

Lemma step_counting (m : move) c c' :
  orderly c -> counting c -> step T m c = Some c' ->
  counting c' /\
  connection_counter (sock (shared c)) <= connection_counter (sock (shared c')) /\
  same_address (sock (shared c)) (sock (shared c')).
Proof.
  intros (_ & He & _) Hcount H. destruct m as [i|i|w]; simpl in H.
  - destruct (tasks c !! i) as [t|] eqn:Hi; [|discriminate].
    destruct (step_task T t (shared c)) as [[t' st']|] eqn:Hs; [|discriminate].
    injection H as <-. unfold step_task in Hs.
    pose proof (Hcount _ _ Hi) as Hct.
    destruct (code t) as [r|e|X e k|line k] eqn:Hc; try discriminate.
    + destruct (handle T e (shared c)) as [[x st1]|] eqn:Hh; [|discriminate].
      injection Hs as <- <-.
      destruct e; simpl in Hh.
      * (* Acquire *)
        destruct (_lock (sock (shared c))); [discriminate|]. injection Hh as <- <-.
        split; [|simpl; repeat split; lia].
        eapply counting_update; [exact Hcount | exact Hi | | left; reflexivity].
        simpl. destruct (held t).
        -- exact (proj2 Hct tt I _ I).
        -- exact (proj2 (Hct 0) tt I _ I).
      * (* Release *)
        injection Hh as <- <-.
        split; [|simpl; repeat split; lia].
        eapply counting_update; [exact Hcount | exact Hi | | left; reflexivity].
        simpl. intros n. destruct (held t).
        -- exact (proj2 Hct tt I n I).
        -- exact (proj2 (Hct 0) tt I n I).
      * (* GetSelf *)
        injection Hh as <- <-.
        split; [|simpl; repeat split; lia].
        eapply counting_update; [exact Hcount | exact Hi | | left; reflexivity].
        simpl. destruct (held t).
        -- exact (proj2 Hct _ (fun _ => eq_refl) _ eq_refl).
        -- intros n. apply (proj2 (Hct n) (sock (shared c))); [discriminate | reflexivity].
      * (* SetReader *)
        injection Hh as <- <-.
        split; [|simpl; repeat split; lia].
        eapply counting_update; [exact Hcount | exact Hi | | left; reflexivity].
        simpl. destruct (held t).
        -- exact (proj2 Hct tt I _ eq_refl).
        -- intros n. exact (proj2 (Hct n) tt I n eq_refl).
      * (* SetWriter *)
        injection Hh as <- <-.
        split; [|simpl; repeat split; lia].
        eapply counting_update; [exact Hcount | exact Hi | | left; reflexivity].
        simpl. destruct (held t).
        -- exact (proj2 Hct tt I _ eq_refl).
        -- intros n. exact (proj2 (Hct n) tt I n eq_refl).
      * (* SetCounter *)
        injection Hh as <- <-.
        destruct (held t) eqn:Ht.
        -- destruct Hct as [[_ Hle] Hk].
           split; [|simpl; repeat split; lia].
           eapply counting_update; [exact Hcount | exact Hi | | right; auto].
           simpl. rewrite ?Ht. exact (Hk tt I _ eq_refl).
        -- destruct (Hct 0) as [[Hf _] _]. discriminate Hf.
      * (* AtEof *)
        injection Hh as <- <-.
        split; [|simpl; repeat split; lia].
        eapply counting_update; [exact Hcount | exact Hi | | left; reflexivity].
        simpl. destruct (held t).
        -- exact (proj2 Hct _ I _ eq_refl).
        -- intros n. exact (proj2 (Hct n) _ I n eq_refl).
      * (* Call *)
        destruct (perform T c0 (net (shared c))) as [y w']. injection Hh as <- <-.
        split; [|simpl; repeat split; lia].
        eapply counting_update; [exact Hcount | exact Hi | | left; reflexivity].
        simpl. destruct (held t).
        -- exact (proj2 Hct _ I _ eq_refl).
        -- intros n. exact (proj2 (Hct n) _ I n eq_refl).
    + injection Hs as <- <-.
      split; [|simpl; repeat split; lia].
      eapply counting_update; [exact Hcount | exact Hi | | left; reflexivity].
      simpl. destruct (held t); [exact Hct | exact Hct].
  - destruct (tasks c !! i) as [t|] eqn:Hi; [|discriminate].
    unfold cancel_task in H. destruct (finished t); [discriminate|].
    injection H as <-.
    split; [|simpl; destruct (held t); simpl; repeat split; lia].
    eapply counting_update; [exact Hcount | exact Hi | |
                             left; destruct (held t); reflexivity].
    simpl. intros n; exact I.
  - injection H as <-. split; [|simpl; repeat split; lia].
    intros i t Hi. exact (Hcount i t Hi).
Qed.

Lemma exec_counting (ms : list move) c c' :
  orderly c -> counting c -> exec T ms c = Some c' ->
  orderly c' /\ counting c' /\
  connection_counter (sock (shared c)) <= connection_counter (sock (shared c')) /\
  same_address (sock (shared c)) (sock (shared c')).
Proof.
  revert c; induction ms as [|m ms IH]; intros c Ho Hc H; simpl in H.
  - injection H as <-. split; [exact Ho|]. split; [exact Hc|].
    split; [lia|]. repeat split.
  - destruct (step T m c) as [c1|] eqn:Hs; [|discriminate].
    destruct (step_counting m Ho Hc Hs) as (Hc1 & Hle & Ha1 & Ha2 & Ha3).
    destruct (IH c1 (step_orderly T m Ho Hs) Hc1 H)
      as (Ho' & Hc' & Hle' & Hb1 & Hb2 & Hb3).
    split; [exact Ho'|]. split; [exact Hc'|].
    split; [lia|]. repeat split; congruence.
Qed.

(** X11: in every interleaving of callers of the public methods, with
    cancellations and changes of the outside world, [connection_counter]
    never goes down from one moment of the run to a later one, and
    [host], [port] and [auto_reconnect] never change. *)
Theorem counter_never_goes_down (ops : list op) st (ms1 ms2 : list move) c1 c2 :
  exec T ms1 (start ops st) = Some c1 ->
  exec T ms2 c1 = Some c2 ->
  connection_counter (sock (shared c1)) <= connection_counter (sock (shared c2))
  /\ host (sock (shared c2)) = host (sock st)
  /\ port (sock (shared c2)) = port (sock st)
  /\ auto_reconnect (sock (shared c2)) = auto_reconnect (sock st).
Proof.
  intros H1 H2.
  destruct (exec_counting ms1 (orderly_start ops st) (counting_start ops st) H1)
    as (Ho1 & Hc1 & _ & Ha1 & Ha2 & Ha3).
  destruct (exec_counting ms2 Ho1 Hc1 H2) as (_ & _ & Hle & Hb1 & Hb2 & Hb3).
  simpl in Ha1, Ha2, Ha3.
  split; [exact Hle|]. repeat split; congruence.
Qed.

(** *** The streaming methods work outside the lock *)

Lemma quiet_bind {A B} (p : prog A) (f : A -> prog B) :
  quiet p -> (forall a, quiet (f a)) -> quiet (bind p f).
Proof.
  intros Hp Hf; induction p as [a|e|X e k IH|line k IH]; simpl in *.
  - apply Hf.
  - exact I.
  - destruct Hp as (Hl & Hb & Hk). repeat split; auto.
  - contradiction.
Qed.

Lemma quiet_connected : quiet (@connected reader writer).
Proof.
  unfold connected; simpl. split; [reflexivity|]. split; [reflexivity|].
  intros s; destruct (_reader s); simpl; auto.
Qed.

Lemma quiet_open : quiet (@open reader writer).
Proof.
  unfold open; apply quiet_bind; [apply quiet_connected|].
  intros [|]; simpl; [exact I|].
  split; [reflexivity|]. split; [reflexivity|]. intros s.
  split; [reflexivity|]. split; [reflexivity|].
  intros [[r w]|name]; simpl; auto 10.
Qed.

Lemma quiet_reconnect_if_needed : quiet (@reconnect_if_needed reader writer).
Proof.
  unfold reconnect_if_needed; apply quiet_bind; [simpl; auto|].
  intros s; destruct (auto_reconnect s); [|exact I].
  apply quiet_bind; [apply quiet_connected|].
  intros [|]; [exact I | apply quiet_open].
Qed.

Lemma unguarded_finally_then {A B} (v : A) (p : prog A) (f : A -> prog B) :
  quiet p -> returns_only v p ->
  unguarded false (f v) ->
  unguarded true (bind (finally p (trigger Release)) f).
Proof.
  intros Hp Hv Hf; induction p as [a|e|X e k IH|line k IH]; simpl in *.
  - subst a. split; [discriminate|]. intros _; exact Hf.
  - split; [discriminate|]. intros _; exact I.
  - destruct Hp as (Hl & Hb & Hk). split; [rewrite Hb; discriminate|].
    intros x. rewrite (not_lock_event_holds e true Hl). apply IH; auto.
  - contradiction.
Qed.

Lemma unguarded_stream {R} (g : prog R) (f : unit -> prog value) :
  plain g ->
  (forall a, unguarded false (f a)) ->
  unguarded false (bind (async_for g (fun line => Yield line (Ret tt))) f).
Proof.
  intros Hg Hf.
  induction Hg as [a|e|k Hk Hp IH|X c k Hc Hp IH|line k Hp IH]; simpl; auto.
Qed.

Lemma unguarded_call (o : op) :
  streaming o = true -> unguarded false (@call reader writer o).
Proof.
  intros Hs. pose proof (plain_body (reader := reader) (writer := writer) o) as Hp.
  destruct o; try discriminate Hs;
    unfold call, readlines, write_readlines, writelines_readlines;
    match goal with
    | |- unguarded _ (ensure_connection ?f) =>
        change (plain (body_of f)) in Hp; set (body := body_of f) in *;
        change (ensure_connection f)
          with (ensure_connection (AsyncGenFunction body));
        clearbody body
    end;
    unfold ensure_connection, async_with_lock; cbn [bind trigger unguarded];
    (split; [discriminate|]); intros _; cbn [holds_after];
    (apply unguarded_finally_then with (v := body);
     [ apply quiet_bind; [apply quiet_reconnect_if_needed | intros _; exact I]
     | apply returns_only_bind; intros _; reflexivity
     | apply unguarded_stream; [exact Hp | intros _; exact I] ]).
Qed.

Lemma step_unguarded (m : move) c c' :
  (forall i t, tasks c !! i = Some t ->
     streaming (origin t) = true -> unguarded (held t) (code t)) ->
  step T m c = Some c' ->
  forall i t, tasks c' !! i = Some t ->
    streaming (origin t) = true -> unguarded (held t) (code t).
Proof.
  intros Hall H. destruct m as [i|i|w]; simpl in H.
  - destruct (tasks c !! i) as [t|] eqn:Hi; [|discriminate].
    destruct (step_task T t (shared c)) as [[t' st']|] eqn:Hs; [|discriminate].
    injection H as <-. unfold step_task in Hs.
    pose proof (Hall _ _ Hi) as Ht.
    intros j tj Hj Hsj. simpl in Hj.
    apply list_lookup_insert_Some in Hj as [(_ & <- & _)|(_ & Hj)];
      [|exact (Hall _ _ Hj Hsj)].
    destruct (code t) as [r|e|X e k|line k] eqn:Hc; try discriminate.
    + destruct (handle T e (shared c)) as [[x st1]|]; [|discriminate].
      injection Hs as <- <-. simpl in *. exact (proj2 (Ht Hsj) x).
    + injection Hs as <- <-. simpl in *. exact (proj2 (Ht Hsj)).
  - destruct (tasks c !! i) as [t|] eqn:Hi; [|discriminate].
    unfold cancel_task in H. destruct (finished t); [discriminate|].
    injection H as <-. intros j tj Hj Hsj. simpl in Hj.
    apply list_lookup_insert_Some in Hj as [(_ & <- & _)|(_ & Hj)];
      [exact I | exact (Hall _ _ Hj Hsj)].
  - injection H as <-. exact Hall.
Qed.

Lemma exec_unguarded (ms : list move) c c' :
  (forall i t, tasks c !! i = Some t ->
     streaming (origin t) = true -> unguarded (held t) (code t)) ->
  exec T ms c = Some c' ->
  forall i t, tasks c' !! i = Some t ->
    streaming (origin t) = true -> unguarded (held t) (code t).
Proof.
  revert c; induction ms as [|m ms IH]; intros c Hc H; simpl in H.
  - injection H as <-; exact Hc.
  - destruct (step T m c) as [c1|] eqn:Hs; [|discriminate].
    apply (IH c1); [eapply step_unguarded; eassumption | exact H].
Qed.

(** X14: as the decorator is written, a caller of [readlines],
    [write_readlines] or [writelines_readlines] is inside the lock for
    the reconnect only.  In every interleaving, whenever such a caller is
    about to read, write or drain on the transport, or to yield a line,
    it is outside the lock. *)
Theorem streaming_bodies_run_unlocked (ops : list op) st (ms : list move) c i t :
  exec T ms (start ops st) = Some c ->
  tasks c !! i = Some t ->
  streaming (origin t) = true ->
  (forall X (e : event X) (k : X -> prog value),
      code t = Vis e k -> body_event e = true -> held t = false)
  /\ (forall line (k : prog value), code t = Yield line k -> held t = false).
Proof.
  intros H Hi Hs.
  assert (H0 : forall j tj, tasks (start ops st) !! j = Some tj ->
                 streaming (origin tj) = true -> unguarded (held tj) (code tj)).
  { intros j tj Hj Hsj. destruct (lookup_spawned ops j Hj) as [Hh Hc].
    rewrite Hh, Hc. apply unguarded_call, Hsj. }
  pose proof (exec_unguarded ms _ H0 H i Hi Hs) as Hu.
  split.
  - intros X e k Hc Hb. rewrite Hc in Hu. exact (proj1 Hu Hb).
  - intros line k Hc. rewrite Hc in Hu. exact (proj1 Hu).
Qed.

End Interleaving.

(** * The command line *)

Section Cli.

Context {reader writer world : Type} (T : @Transport reader writer world).
Context {str : Type} (encode : str -> bytes).

(** X12: [app] connects to the host and port of its options, sends the
    encoded request, drains, reads one line and gives that line to
    [print]; it has opened exactly one connection.  When the connection
    is refused the error goes up and nothing is printed. *)
Theorem app_prints_the_first_reply (options : cli.options str) w :
  (forall r wr w1 w2 w3 w4 line,
      perform T (OpenConnection (cli.host options) (cli.port options)) w
        = (Ok (r, wr), w1) ->
      perform T (Write wr (encode (cli.request options))) w1 = (Ok tt, w2) ->
      perform T (Drain wr) w2 = (Ok tt, w3) ->
      perform T (Readline r) w3 = (Ok line, w4) ->
      exists st',
        cli.app T encode options w = (Returned (VBytes line), [], st') /\
        net st' = w4 /\
        connection_counter (sock st') = 1 /\
        _lock (sock st') = false)
  /\ (forall name w1,
        perform T (OpenConnection (cli.host options) (cli.port options)) w
          = (Err name, w1) ->
        cli.app T encode options w
        = (Raised (TransportError name), [],
           {| sock := __init__ (cli.host options) (cli.port options) true;
              net := w1 |})).
Proof.
  unfold cli.app.
  change (write_readline (encode (cli.request options)))
    with (@call reader writer (op_write_readline (encode (cli.request options)))).
  set (st := {| sock := __init__ (cli.host options) (cli.port options) true;
                net := w |}).
  rewrite (run_call T _ st eq_refl), run_reconnect_if_needed, run_open,
    connected_now_eq.
  subst st; simpl.
  split.
  - intros r wr w1 w2 w3 w4 line Ho Hw Hd Hr. rewrite Ho; simpl.
    rewrite Hw; simpl. rewrite Hd; simpl. rewrite Hr; simpl.
    eexists; repeat split.
  - intros name w1 Ho. rewrite Ho. reflexivity.
Qed.

End Cli.

(** * The further properties on the scripted transport *)

Lemma fake_healthy_is_live w' : Fake.healthy w' -> at_eof Fake.transport 0%nat w' = false.
Proof. intros (_ & _ & He & _). simpl. unfold Fake.is_ended. rewrite He. reflexivity. Qed.

Lemma first_call_opens_once_witness :
  perform Fake.transport (OpenConnection "dev" 5000) (Fake.serving [b "ACME"; b "B"])
    = (Ok (0%nat, 0%nat), Fake.accept (Fake.serving [b "ACME"; b "B"]))
  /\ (exists w2,
        spec_operation Fake.transport (op_write_readline (b "*IDN?")) 0%nat 0%nat
          (Fake.accept (Fake.serving [b "ACME"; b "B"]))
          = (Ok (VBytes (b "ACME"), []), w2) /\
        Fake.received w2 = [b "*IDN?"] /\
        Fake.connections w2 = 1%nat /\
        run Fake.transport (call (op_write_readline (b "*IDN?")))
          (fresh true (Fake.serving [b "ACME"; b "B"]))
          = (Returned (VBytes (b "ACME")), [],
             {| sock := connect_to 0%nat 0%nat (__init__ "dev" 5000 true);
                net := w2 |}))
  /\ (exists w2,
        spec_operation Fake.transport (op_readlines 2) 0%nat 0%nat
          (Fake.accept (Fake.serving [b "ACME"; b "B"]))
          = (Ok (VNone, [b "ACME"; b "B"]), w2) /\
        Fake.connections w2 = 1%nat /\
        run Fake.transport (call (op_readlines 2))
          (fresh true (Fake.serving [b "ACME"; b "B"]))
          = (Returned VNone, [b "ACME"; b "B"],
             {| sock := connect_to 0%nat 0%nat (__init__ "dev" 5000 true);
                net := w2 |}))
  /\ connection_counter (connect_to 0%nat 0%nat (__init__ "dev" 5000 true)) = 1.
Proof.
  split; [reflexivity|]. split; [|split].
  - eexists. split; [reflexivity|]. split; [reflexivity|]. split; [reflexivity|].
    exact (proj1 (first_call_opens_once Fake.transport
                    (op_write_readline (b "*IDN?")) "dev" 5000
                    (Fake.serving [b "ACME"; b "B"]) eq_refl eq_refl)).
  - eexists. split; [reflexivity|]. split; [reflexivity|].
    exact (proj1 (first_call_opens_once Fake.transport
                    (op_readlines 2) "dev" 5000
                    (Fake.serving [b "ACME"; b "B"]) eq_refl eq_refl)).
  - reflexivity.
Defined.

Lemma call_changes_only_by_reconnecting_witness :
  _lock (sock (fresh true (Fake.serving [b "X"]))) = false
  /\ _lock (sock talking) = false
  /\ (exists out lines st',
        run Fake.transport (call op_readline) (fresh true (Fake.serving [b "X"]))
          = (out, lines, st') /\
        out <> Blocked /\
        _lock (sock st') = false /\
        sock st' = connect_to 0%nat 0%nat (__init__ "dev" 5000 true) /\
        connection_counter (sock st') = 1)
  /\ (exists out lines st',
        run Fake.transport (call op_readline) talking = (out, lines, st') /\
        out <> Blocked /\
        sock st' = sock talking).
Proof.
  split; [reflexivity|]. split; [reflexivity|]. split.
  - destruct (call_changes_only_by_reconnecting Fake.transport op_readline
                (fresh true (Fake.serving [b "X"])) eq_refl)
      as (out & lines & st' & Hrun & Hb & Hl & Hre & _).
    exists out, lines, st'.
    destruct (Hre 0%nat 0%nat _ eq_refl eq_refl eq_refl) as [Hs Hc].
    split; [exact Hrun|]. split; [exact Hb|]. split; [exact Hl|].
    split; [exact Hs|exact Hc].
  - destruct (call_changes_only_by_reconnecting Fake.transport op_readline
                talking eq_refl)
      as (out & lines & st' & Hrun & Hb & _ & _ & Hsame).
    exists out, lines, st'.
    split; [exact Hrun|]. split; [exact Hb|].
    apply Hsame. left. reflexivity.
Defined.

Lemma refused_connection_propagates_witness :
  connected_now Fake.transport (fresh true deaf) = false
  /\ run Fake.transport open (fresh true deaf)
     = (Raised (TransportError "ConnectionRefusedError"), [], fresh true deaf)
  /\ run Fake.transport (call (op_write (b "PING"))) (fresh true deaf)
     = (Raised (TransportError "ConnectionRefusedError"), [], fresh true deaf).
Proof.
  pose proof (refused_connection_propagates Fake.transport (fresh true deaf)
                (name := "ConnectionRefusedError") (w' := deaf) eq_refl eq_refl)
    as [Hopen Hcall].
  split; [reflexivity|]. split; [exact Hopen|].
  exact (Hcall eq_refl eq_refl (op_write (b "PING"))).
Defined.

Lemma reads_pass_through_witness :
  @read_call nat nat op_readline 0%nat = Some (Readline 0%nat)
  /\ connected_now Fake.transport talking = true
  /\ run Fake.transport (call op_readline) talking
     = (Returned (VBytes (b "X")), [],
        {| sock := sock talking; net := Fake.pop 0 (net talking) |}).
Proof.
  split; [reflexivity|]. split; [reflexivity|].
  exact (reads_pass_through Fake.transport op_readline talking
           (r := 0%nat) (c := Readline 0%nat)
           eq_refl eq_refl eq_refl (or_intror eq_refl)).
Defined.

Lemma writes_are_drained_witness :
  @write_call nat nat (op_write (b "PING")) 0%nat = Some (Write 0%nat (b "PING"))
  /\ run Fake.transport (call (op_write (b "PING"))) talking
     = (Returned VNone, [],
        {| sock := sock talking; net := Fake.push [b "PING"] (net talking) |}).
Proof.
  split; [reflexivity|].
  exact (writes_are_drained Fake.transport (op_write (b "PING")) talking
           (w := 0%nat) (c := Write 0%nat (b "PING"))
           eq_refl eq_refl eq_refl (or_intror eq_refl)).
Defined.

Lemma write_readline_asks_then_reads_witness :
  run Fake.transport (write_readline (b "*IDN?")) talking
  = (Returned (VBytes (b "X")), [],
     {| sock := sock talking;
        net := Fake.pop 0 (Fake.push [b "*IDN?"] (net talking)) |}).
Proof.
  exact (write_readline_asks_then_reads Fake.transport (b "*IDN?") talking
           (r := 0%nat) (w := 0%nat) eq_refl eq_refl eq_refl (or_intror eq_refl)).
Defined.

Lemma readlines_yields_until_a_read_raises_witness :
  run Fake.transport (readlines 2) talking
    = (Returned VNone, [b "X"; b "Y"],
       {| sock := sock talking; net := Fake.pop 0 (Fake.pop 0 (net talking)) |})
  /\ (length [b "X"; b "Y"] <= Z.to_nat 2)%nat.
Proof.
  pose proof (readlines_yields_until_a_read_raises Fake.transport 2 talking
                (r := 0%nat) eq_refl eq_refl (or_intror eq_refl)) as H.
  exact (conj (proj1 H) (proj1 (proj2 H))).
Defined.

Lemma write_readlines_writes_before_it_yields_witness :
  run Fake.transport (write_readlines (b "LIST?") 2) talking
  = (Returned VNone, [b "X"; b "Y"],
     {| sock := sock talking;
        net := Fake.pop 0 (Fake.pop 0 (Fake.push [b "LIST?"] (net talking))) |}).
Proof.
  exact (write_readlines_writes_before_it_yields Fake.transport (b "LIST?") 2 talking
           (r := 0%nat) (w := 0%nat) eq_refl eq_refl eq_refl (or_intror eq_refl)).
Defined.

Lemma session_keeps_the_object_consistent_witness :
  paired (sock (fresh true (Fake.serving [b "A"; b "B"; b "C"])))
  /\ _lock (sock (snd (session Fake.transport errands
                        (fresh true (Fake.serving [b "A"; b "B"; b "C"]))))) = false
  /\ paired (sock (snd (session Fake.transport errands
                         (fresh true (Fake.serving [b "A"; b "B"; b "C"])))))
  /\ 0 <= connection_counter
            (sock (snd (session Fake.transport errands
                          (fresh true (Fake.serving [b "A"; b "B"; b "C"])))))
       <= 0 + Z.of_nat (length errands).
Proof.
  assert (Hp : paired (sock (fresh true (Fake.serving [b "A"; b "B"; b "C"]))))
    by (split; reflexivity).
  split; [exact Hp|].
  pose proof (session_keeps_the_object_consistent Fake.transport errands
                (fresh true (Fake.serving [b "A"; b "B"; b "C"])) eq_refl Hp) as H.
  destruct (session Fake.transport errands
              (fresh true (Fake.serving [b "A"; b "B"; b "C"]))) as [results st'].
  destruct H as (_ & _ & Hl & Hp' & _ & _ & _ & Hc).
  exact (conj Hl (conj Hp' Hc)).
Defined.

Lemma session_shares_one_connection_witness :
  Fake.healthy (Fake.accept (Fake.repeating (b "OK")))
  /\ connection_counter
       (sock (snd (session Fake.transport
                     (map do_call [op_write (b "a"); op_readline; op_readlines 3])
                     (fresh true (Fake.repeating (b "OK")))))) = 1.
Proof.
  assert (Hh : Fake.healthy (Fake.accept (Fake.repeating (b "OK"))))
    by (repeat split; simpl; eauto).
  split; [exact Hh|].
  pose proof (session_shares_one_connection (T := Fake.transport)
                (op_write (b "a")) [op_readline; op_readlines 3]
                "dev" 5000 (Fake.repeating (b "OK"))
                eq_refl fake_dependable fake_healthy_is_live Hh) as H.
  change {| sock := __init__ "dev" 5000 true; net := Fake.repeating (b "OK") |}
    with (fresh true (Fake.repeating (b "OK"))) in H.
  destruct (session Fake.transport
              (map do_call [op_write (b "a"); op_readline; op_readlines 3])
              (fresh true (Fake.repeating (b "OK")))) as [results st'].
  exact (proj1 (proj2 (proj2 H))).
Defined.

Lemma lock_is_released_on_every_exit_witness :
  _lock (sock (fresh true (Fake.serving [b "A"; b "B"]))) = false
  /\ exists c,
       exec Fake.transport (one_line_in ++ writer_enters) two_callers = Some c /\
       _lock (sock (shared c)) = true /\
       exists i t, tasks c !! i = Some t /\ held t = true /\ finished t = false.
Proof.
  split; [reflexivity|].
  destruct (exec Fake.transport (one_line_in ++ writer_enters) two_callers)
    as [c|] eqn:E; [|vm_compute in E; discriminate E].
  exists c. split; [reflexivity|].
  assert (Hl : _lock (sock (shared c)) = true).
  { assert (Ho : option_map (fun c => _lock (sock (shared c)))
                   (exec Fake.transport (one_line_in ++ writer_enters) two_callers)
                 = Some true) by (vm_compute; reflexivity).
    rewrite E in Ho. injection Ho as Ho. exact Ho. }
  split; [exact Hl|].
  exact (proj1 (lock_is_released_on_every_exit Fake.transport
                  [op_readlines 2; op_write (b "PING")]
                  (fresh true (Fake.serving [b "A"; b "B"]))
                  (one_line_in ++ writer_enters) eq_refl E) Hl).
Defined.

Lemma counter_never_goes_down_witness :
  exists c1 c2,
    exec Fake.transport one_line_in two_callers = Some c1 /\
    exec Fake.transport writer_enters c1 = Some c2 /\
    connection_counter (sock (shared c1)) <= connection_counter (sock (shared c2)).
Proof.
  destruct (exec Fake.transport one_line_in two_callers) as [c1|] eqn:E1;
    [|vm_compute in E1; discriminate E1].
  destruct (exec Fake.transport writer_enters c1) as [c2|] eqn:E2.
  - exists c1, c2. split; [reflexivity|]. split; [exact E2|].
    exact (proj1 (counter_never_goes_down Fake.transport _ _ _ _ E1 E2)).
  - exfalso.
    assert (H : exec Fake.transport (one_line_in ++ writer_enters) two_callers = None).
    { clear -E1 E2. revert E1. generalize two_callers. generalize one_line_in.
      induction l as [|m l IH]; intros c0 E1; simpl in *.
      - injection E1 as ->. exact E2.
      - destruct (step Fake.transport m c0); [apply IH; exact E1 | discriminate]. }
    vm_compute in H. discriminate H.
Defined.

Lemma app_prints_the_first_reply_witness :
  exists st',
    cli.app Fake.transport b idn (Fake.serving [b "ACME,Model1,0001,1.0"])
      = (Returned (VBytes (b "ACME,Model1,0001,1.0")), [], st') /\
    Fake.received (net st') = [b "*IDN?"] /\
    connection_counter (sock st') = 1.
Proof.
  destruct (proj1 (app_prints_the_first_reply Fake.transport b idn
                     (Fake.serving [b "ACME,Model1,0001,1.0"]))
              0%nat 0%nat _ _ _ _ (b "ACME,Model1,0001,1.0")
              eq_refl eq_refl eq_refl eq_refl)
    as (st' & Hrun & Hnet & Hc & _).
  exists st'. split; [exact Hrun|]. split; [rewrite Hnet; reflexivity | exact Hc].
Defined.

Lemma close_then_open_again_witness :
  run Fake.transport close talking
    = (Returned tt, [], after Fake.transport close talking)
  /\ connection_counter (sock (after Fake.transport close talking)) = 1
  /\ run Fake.transport open (after Fake.transport close talking)
     = (Returned tt, [],
        {| sock := connect_to 1%nat 1%nat (sock (after Fake.transport close talking));
           net := Fake.accept (net (after Fake.transport close talking)) |})
  /\ connection_counter
       (connect_to 1%nat 1%nat (sock (after Fake.transport close talking))) = 1 + 1.
Proof.
  destruct (close_then_open_again Fake.transport talking
              (st1 := after Fake.transport close talking) eq_refl) as [Hc Hopen].
  destruct (Hopen 1%nat 1%nat (Fake.accept (net (after Fake.transport close talking)))
              eq_refl) as (Ho & Hn & _).
  split; [reflexivity|]. split; [exact Hc|]. split; [exact Ho | exact Hn].
Defined.

Lemma streaming_bodies_run_unlocked_witness :
  exists c t,
    exec Fake.transport first_read two_callers = Some c /\
    tasks c !! 0%nat = Some t /\
    origin t = op_readlines 2 /\
    forall line k, code t = Yield line k -> held t = false.
Proof.
  destruct (exec Fake.transport first_read two_callers) as [c|] eqn:E;
    [|vm_compute in E; discriminate E].
  assert (Ho : option_map (fun c => option_map origin (tasks c !! 0%nat))
                 (exec Fake.transport first_read two_callers)
               = Some (Some (op_readlines 2))) by (vm_compute; reflexivity).
  rewrite E in Ho; simpl in Ho.
  destruct (tasks c !! 0%nat) as [t|] eqn:Hi; [|discriminate Ho].
  injection Ho as Ho.
  exists c, t. split; [reflexivity|]. split; [exact Hi|]. split; [exact Ho|].
  refine (proj2 (streaming_bodies_run_unlocked Fake.transport _ _ _ 0%nat E Hi _)).
  rewrite Ho; reflexivity.
Defined.
